(** * goconfig: environment variables bound into Go structs

    A shallow embedding of [config.go], [transformer.go] and the options
    file of github.com/jkaveri/goconfig, with the parts of the Go standard
    library the loader leans on ([strings], [strconv], [reflect]).

    Conventions of the embedding.
    - Go strings are byte sequences; they are Rocq [string]s.  Where the Go
      code iterates over runes ([UperCaseTransformer], [strings.Split] with
      an empty separator) every byte is taken as one rune, which is exact
      for ASCII text.
    - [int], [uint] and [uintptr] are 64 bits wide (amd64, arm64).
    - The reflective walk mutates the target in place.  Every function of
      the walk therefore returns the new contents of the location it was
      handed next to its Go results; a freshly allocated record that is
      never stored is simply dropped.
    - A Go panic is an explicit completion, so that the two [recover]
      guards of the loader can be written down. *)

From Stdlib Require Import ZArith String Ascii List Lia Bool.
From stdpp Require Import base option list strings gmap.

Set Warnings "-register-all".

Local Open Scope string_scope.
Local Open Scope Z_scope.

(** ** The standard library as far as the loader uses it *)

Module strings.

(** [s[n:]] *)
Fixpoint skip (n : nat) (s : string) : string :=
  match n, s with
  | O, _ => s
  | S n', String _ s' => skip n' s'
  | S _, EmptyString => EmptyString
  end.

(** [strings.HasPrefix] *)
Fixpoint HasPrefix (s prefix : string) : bool :=
  match prefix, s with
  | EmptyString, _ => true
  | String a prefix', String b s' => Ascii.eqb a b && HasPrefix s' prefix'
  | String _ _, EmptyString => false
  end.

(** [strings.Index]: the first position at which [substr] occurs in [s];
    [None] stands for -1. *)
Fixpoint Index (s substr : string) : option nat :=
  if HasPrefix s substr then Some O
  else
    match s with
    | EmptyString => None
    | String _ s' =>
        match Index s' substr with
        | Some i => Some (S i)
        | None => None
        end
    end.

(** [strings.Join] *)
Definition Join (elems : list string) (sep : string) : string :=
  String.concat sep elems.

(** [strings.Count] for a non-empty [substr]: the unbounded [for] loop
    consumes at least one byte of [s] per round, [fuel] bounds the rounds. *)
Fixpoint countLoop (fuel : nat) (s substr : string) : nat :=
  match fuel with
  | O => O
  | S fuel' =>
      match Index s substr with
      | None => O
      | Some i => S (countLoop fuel' (skip (i + String.length substr) s) substr)
      end
  end.

Definition Count (s substr : string) : nat :=
  match substr with
  | EmptyString => (String.length s + 1)%nat
  | _ => countLoop (String.length s) s substr
  end.

(** [explode(s, -1)]: one string per rune. *)
Fixpoint explode (s : string) : list string :=
  match s with
  | EmptyString => []
  | String c s' => String c EmptyString :: explode s'
  end.

(** The [for i < n] loop of [genSplit], [k] rounds left. *)
Fixpoint splitLoop (k : nat) (s sep : string) : list string :=
  match k with
  | O => [s]
  | S k' =>
      match Index s sep with
      | None => [s]
      | Some m =>
          String.substring 0 m s
            :: splitLoop k' (skip (m + String.length sep) s) sep
      end
  end.

(** [strings.Split(s, sep)], that is [genSplit(s, sep, 0, -1)]. *)
Definition Split (s sep : string) : list string :=
  match sep with
  | EmptyString => explode s
  | _ =>
      let n := (Count s sep + 1)%nat in
      let n := if (String.length s + 1 <? n)%nat then (String.length s + 1)%nat else n in
      splitLoop (n - 1) s sep
  end.

End strings.

Module strconv.

Inductive Err := ErrSyntax | ErrRange.

(** [*strconv.NumError] *)
Record NumError := mkNumError { Func : string; Num : string; Cause : Err }.

Definition maxUint64 : Z := 2 ^ 64 - 1.

(** The digit value of a byte in base 10; a letter has a value of ten
    or more and is refused like any other byte. *)
Definition digit (c : ascii) : option Z :=
  let n := Z.of_nat (nat_of_ascii c) in
  if (48 <=? n) && (n <=? 57) then Some (n - 48) else None.

(** The loop of [ParseUint] over the bytes of [s]; [n] is the [uint64]
    accumulator.  The result is the returned number and the error kind. *)
Fixpoint parseUintLoop (s : string) (n maxVal : Z) : Z * option Err :=
  match s with
  | EmptyString => (n, None)
  | String c rest =>
      match digit c with
      | None => (0, Some ErrSyntax)
      | Some d =>
          let cutoff := maxUint64 / 10 + 1 in
          if cutoff <=? n then (maxVal, Some ErrRange)
          else
            let n10 := (n * 10) mod 2 ^ 64 in
            let n1 := (n10 + d) mod 2 ^ 64 in
            if (n1 <? n10) || (maxVal <? n1) then (maxVal, Some ErrRange)
            else parseUintLoop rest n1 maxVal
      end
  end.

(** [strconv.ParseUint(s, 10, bitSize)] with [1 <= bitSize <= 64]. *)
Definition ParseUint (s : string) (bitSize : Z) : Z * option NumError :=
  match s with
  | EmptyString => (0, Some (mkNumError "ParseUint" s ErrSyntax))
  | _ =>
      let maxVal := 2 ^ bitSize - 1 in
      match parseUintLoop s 0 maxVal with
      | (n, None) => (n, None)
      | (n, Some e) => (n, Some (mkNumError "ParseUint" s e))
      end
  end.

(** [strconv.ParseInt(s, 10, bitSize)] with [1 <= bitSize <= 64]. *)
Definition ParseInt (s0 : string) (bitSize : Z) : Z * option NumError :=
  match s0 with
  | EmptyString => (0, Some (mkNumError "ParseInt" s0 ErrSyntax))
  | String c0 rest =>
      let '(neg, s) :=
        if Ascii.eqb c0 "+"%char then (false, rest)
        else if Ascii.eqb c0 "-"%char then (true, rest)
        else (false, s0) in
      let '(un, err) := ParseUint s bitSize in
      match err with
      | Some (mkNumError _ _ ErrSyntax) => (0, Some (mkNumError "ParseInt" s0 ErrSyntax))
      | _ =>
          let cutoff := 2 ^ (bitSize - 1) in
          if negb neg && (cutoff <=? un) then
            (cutoff - 1, Some (mkNumError "ParseInt" s0 ErrRange))
          else if neg && (cutoff <? un) then
            (- cutoff, Some (mkNumError "ParseInt" s0 ErrRange))
          else (if neg then - un else un, None)
      end
  end.

(** [strconv.ParseBool] *)
Definition ParseBool (str : string) : bool * option NumError :=
  if existsb (String.eqb str) ["1"; "t"; "T"; "true"; "TRUE"; "True"] then (true, None)
  else if existsb (String.eqb str) ["0"; "f"; "F"; "false"; "FALSE"; "False"] then (false, None)
  else (false, Some (mkNumError "ParseBool" str ErrSyntax)).

End strconv.

(** [unicode.IsUpper], [unicode.IsLetter] and [unicode.ToUpper] on the
    ASCII range; every other byte is taken as a rune that is no letter. *)
Module unicode.

Definition IsUpper (c : ascii) : bool :=
  let n := nat_of_ascii c in ((65 <=? n) && (n <=? 90))%nat.

Definition IsLower (c : ascii) : bool :=
  let n := nat_of_ascii c in ((97 <=? n) && (n <=? 122))%nat.

Definition IsLetter (c : ascii) : bool := IsUpper c || IsLower c.

Definition ToUpper (c : ascii) : ascii :=
  if IsLower c then ascii_of_nat (nat_of_ascii c - 32) else c.

End unicode.

(** ** transformer.go *)

Definition VoidTransformer (key : string) : string := key.

(** The closure [canToUpper] of [UperCaseTransformer]. *)
Definition canToUpper (c : ascii) : bool := negb (Ascii.eqb (unicode.ToUpper c) c).

(** The [range runes] loop: [prev] is [runes[i-1]] ([None] when [i = 0]),
    the argument is [runes[i:]]. *)
Fixpoint upperCaseLoop (prev : option ascii) (runes : string) : string :=
  match runes with
  | EmptyString => EmptyString
  | String c rest =>
      let next_can := match rest with String d _ => canToUpper d | EmptyString => false end in
      let split :=
        match prev with
        | None => false
        | Some p =>
            unicode.IsUpper c && unicode.IsLetter c && negb (Ascii.eqb p "_"%char)
              && (next_can || canToUpper p)
        end in
      if split
      then String "_"%char (String c (upperCaseLoop (Some c) rest))
      else String (unicode.ToUpper c) (upperCaseLoop (Some c) rest)
  end.

Definition UperCaseTransformer (key : string) : string := upperCaseLoop None key.

(** ** reflect: types, values and struct fields *)

Module reflect.
Inductive Kind :=
| Invalid | Bool | Int | Int8 | Int16 | Int32 | Int64
| Uint | Uint8 | Uint16 | Uint32 | Uint64 | Uintptr
| Float32 | Float64 | Complex64 | Complex128
| Array | Chan | Func | Interface | Map | Pointer | Slice
| String | Struct | UnsafePointer.

Definition eqb (a b : Kind) : bool :=
  match a, b with
  | Invalid, Invalid | Bool, Bool | Int, Int | Int8, Int8 | Int16, Int16
  | Int32, Int32 | Int64, Int64 | Uint, Uint | Uint8, Uint8
  | Uint16, Uint16 | Uint32, Uint32 | Uint64, Uint64 | Uintptr, Uintptr
  | Float32, Float32 | Float64, Float64 | Complex64, Complex64
  | Complex128, Complex128 | Array, Array | Chan, Chan | Func, Func
  | Interface, Interface | Map, Map | Pointer, Pointer | Slice, Slice
  | String, String | Struct, Struct | UnsafePointer, UnsafePointer => true
  | _, _ => false
  end.
End reflect.

(** [reflect.StructField], over the representation [T] of types.
    [PkgPath] is empty exactly for exported fields; the tag is the list of
    its [key:"value"] pairs in source order. *)
Record StructField (T : Type) := mkField {
  Name : string;
  PkgPath : string;
  Type_ : T;
  Tag : list (string * string);
  Anonymous : bool
}.
Arguments mkField {T}.
Arguments Name {T}.
Arguments PkgPath {T}.
Arguments Type_ {T}.
Arguments Tag {T}.
Arguments Anonymous {T}.

Inductive intSize := I | I8 | I16 | I32 | I64.
Inductive uintSize := U | U8 | U16 | U32 | U64 | Uptr.
Inductive floatSize := F32 | F64.
(** The kinds the loader has no case for. *)
Inductive otherKind := Complex64 | Complex128 | Array | Chan | Func | Interface | UnsafePointer.

(** Go types as the loader inspects them.  [TDuration] is [time.Duration],
    the one type [isDuration] accepts.  [TText name u] is a defined type
    [name] with underlying type [u] (never a pointer: Go allows no methods
    on a defined pointer type) whose pointer implements
    [encoding.TextUnmarshaler]. *)
Inductive rtype :=
| TBool
| TInt (w : intSize)
| TUint (w : uintSize)
| TFloat (w : floatSize)
| TString
| TDuration
| TOther (k : otherKind)
| TSlice (elem : rtype)
| TMap (key elem : rtype)
| TStruct (fields : list (StructField rtype))
| TPtr (elem : rtype)
| TText (name : string) (underlying : rtype).

(** Go values.  A float is its IEEE 754 bit pattern; arithmetic on floats
    is never needed.  [VSlice None], [VMap None] and [VPtr None] are nil. *)
Inductive value :=
| VBool (b : bool)
| VInt (n : Z)
| VUint (n : Z)
| VFloat (bits : Z)
| VString (s : string)
| VOpaque
| VSlice (elems : option (list value))
| VMap (entries : option (list (value * value)))
| VStruct (fields : list value)
| VPtr (target : option value).

Definition Kind_other (k : otherKind) : reflect.Kind :=
  match k with
  | Complex64 => reflect.Complex64 | Complex128 => reflect.Complex128
  | Array => reflect.Array | Chan => reflect.Chan | Func => reflect.Func
  | Interface => reflect.Interface | UnsafePointer => reflect.UnsafePointer
  end.

(** [reflect.Type.Kind] *)
Fixpoint Kind (t : rtype) : reflect.Kind :=
  match t with
  | TBool => reflect.Bool
  | TInt I => reflect.Int | TInt I8 => reflect.Int8 | TInt I16 => reflect.Int16
  | TInt I32 => reflect.Int32 | TInt I64 => reflect.Int64
  | TUint U => reflect.Uint | TUint U8 => reflect.Uint8 | TUint U16 => reflect.Uint16
  | TUint U32 => reflect.Uint32 | TUint U64 => reflect.Uint64 | TUint Uptr => reflect.Uintptr
  | TFloat F32 => reflect.Float32 | TFloat F64 => reflect.Float64
  | TString => reflect.String
  | TDuration => reflect.Int64
  | TOther k => Kind_other k
  | TSlice _ => reflect.Slice
  | TMap _ _ => reflect.Map
  | TStruct _ => reflect.Struct
  | TPtr _ => reflect.Pointer
  | TText _ u => Kind u
  end.

(** The zero value of a type ([reflect.Zero], and what [reflect.New] and
    [reflect.MakeSlice] fill in). *)
Fixpoint zero (t : rtype) : value :=
  match t with
  | TBool => VBool false
  | TInt _ => VInt 0
  | TUint _ => VUint 0
  | TFloat _ => VFloat 0
  | TString => VString ""
  | TDuration => VInt 0
  | TOther _ => VOpaque
  | TSlice _ => VSlice None
  | TMap _ _ => VMap None
  | TStruct fs => VStruct (map (fun tf => zero (Type_ tf)) fs)
  | TPtr _ => VPtr None
  | TText _ u => zero u
  end.

(** [reflect.StructTag.Lookup] *)
Fixpoint Lookup (tag : list (string * string)) (key : string) : option string :=
  match tag with
  | [] => None
  | (k, v) :: rest => if String.eqb k key then Some v else Lookup rest key
  end.

(** [reflect.Value.CanSet] for the field [tf] of a struct reached by the
    walk: the walk only ever descends through assignable values, so the
    field is assignable exactly when it is exported. *)
Definition CanSet (tf : StructField rtype) : bool := String.eqb (PkgPath tf) "".

(** [reflect.Type.Elem] *)
Definition Elem (t : rtype) : rtype :=
  match t with
  | TPtr e | TSlice e | TMap _ e => e
  | _ => t
  end.

(** What the pointer [p] points to ([d] if it is nil). *)
Definition pointee (p d : value) : value :=
  match p with VPtr (Some v) => v | _ => d end.

(** The kind of a value that stands where a struct is expected: of the
    values of a type whose direct type is a struct, only the pointers are
    not structs. *)
Definition kindOf (v : value) : reflect.Kind :=
  match v with
  | VStruct _ => reflect.Struct
  | VPtr _ => reflect.Pointer
  | _ => reflect.Invalid
  end.

(** [reflect.Value.IsNil] on a pointer *)
Definition IsNil (v : value) : bool :=
  match v with VPtr None => true | _ => false end.

(** The bit width [SetInt] and [SetUint] convert to. *)
Definition intBits (w : intSize) : Z :=
  match w with I => 64 | I8 => 8 | I16 => 16 | I32 => 32 | I64 => 64 end.
Definition uintBits (w : uintSize) : Z :=
  match w with U => 64 | U8 => 8 | U16 => 16 | U32 => 32 | U64 => 64 | Uptr => 64 end.

(** The Go conversions [intN(x)] and [uintN(x)]: keep the low [bits] bits. *)
Definition toInt (bits x : Z) : Z :=
  (x + 2 ^ (bits - 1)) mod 2 ^ bits - 2 ^ (bits - 1).
Definition toUint (bits x : Z) : Z := x mod 2 ^ bits.

(** ** Errors and panics *)

Inductive panic :=
| ValueError (Method : string) (k : reflect.Kind)   (* *reflect.ValueError *)
| Thrown (what : string).                           (* a panic of foreign code *)

Inductive error :=
| NumErr (e : strconv.NumError)
| Foreign (msg : string)
    (* an error made by time, encoding/json or an UnmarshalText method *)
| NotAPointer (t : rtype)
    (* "should be a pointer to %T" *)
| StructPanic (t : rtype) (joined : string) (p : panic)
    (* "cannot load to struct %T (prefix=%s). panic: %v" *)
| FieldPanic (t : rtype) (joined : string) (p : panic)
    (* "cannot load to %s field (prefix=%s). panic: %v" *)
| CannotBeSet (t : rtype)
    (* "%s field is cannot be set" *)
| Unsupported (t : rtype)
    (* "unsupported %s" *)
| Wrapf (cause : error) (msg : string).
    (* errors.Wrapf(cause, msg) *)

(** How a call ends: it returns, or it panics. *)
Inductive completion (A : Type) :=
| Returns (a : A)
| Panics (p : panic).
Arguments Returns {A}.
Arguments Panics {A}.

(** What the loader calls and this repository does not define: float and
    duration parsing, the JSON decoder behind map fields, and the
    [UnmarshalText] methods of the types marked [TText]. *)
Record Externals := {
  ParseFloat : string -> Z * option error;
  float32 : Z -> Z;
  ParseDuration : string -> Z * option error;
  jsonUnmarshal : rtype -> string -> value -> value * option error;
  UnmarshalText : string -> value -> string -> value * completion (option error)
}.

(** ** config.go and the options *)

Definition DefaultSep : string := "_".
Definition DefaultArrSep : string := ",".

Record Loader := mkLoader {
  prefix : string;
  sep : string;
  arraySep : string;
  fieldNameTransformer : option (string -> string)
}.

Definition Option := Loader -> Loader.

Definition WithPrefix (p : string) : Option :=
  fun c => mkLoader p (sep c) (arraySep c) (fieldNameTransformer c).
Definition WithSeparator (s : string) : Option :=
  fun c => mkLoader (prefix c) s (arraySep c) (fieldNameTransformer c).
Definition WithArraySeparator (s : string) : Option :=
  fun c => mkLoader (prefix c) (sep c) s (fieldNameTransformer c).
Definition WithKeyTransformer (transformer : option (string -> string)) : Option :=
  fun c => mkLoader (prefix c) (sep c) (arraySep c) transformer.

Definition New (options : list Option) : Loader :=
  fold_left (fun c opt => opt c) options
    (mkLoader "" DefaultSep DefaultArrSep (Some UperCaseTransformer)).

(** [os.LookupEnv]: the empty name is never found. *)
Definition LookupEnv (environ : gmap string string) (key : string) : option string :=
  if String.eqb key "" then None else environ !! key.

Definition getFieldName (c : Loader) (tf : StructField rtype) : string * bool :=
  match Lookup (Tag tf) "env" with
  | Some tag => (tag, true)
  | None =>
      match Lookup (Tag tf) "alias" with
      | Some tag => (tag, false)
      | None =>
          match fieldNameTransformer c with
          | Some f => (f (Name tf), false)
          | None => (Name tf, false)
          end
      end
  end.

(** The closure [joinKeys] of [buildEnvKey]. *)
Definition joinKeys (c : Loader) (names : list string) : string :=
  let arr := if String.eqb (prefix c) "" then [] else [prefix c] in
  let arr := (arr ++ filter (fun name => name <> "") names)%list in
  strings.Join arr (sep c).

Definition buildEnvKey (c : Loader) (tf : StructField rtype) (parentKeys : list string)
  : string * list string :=
  if Anonymous tf then (joinKeys c parentKeys, parentKeys)
  else
    let '(name, exactly) := getFieldName c tf in
    let parentKeys := (parentKeys ++ [name])%list in
    if negb exactly then (joinKeys c parentKeys, parentKeys)
    else (name, parentKeys).

Definition isSliceField (kind : reflect.Kind) : bool := reflect.eqb kind reflect.Slice.
Definition isBool (kind : reflect.Kind) : bool := reflect.eqb kind reflect.Bool.
Definition isString (kind : reflect.Kind) : bool := reflect.eqb kind reflect.String.
Definition isStruct (kind : reflect.Kind) : bool := reflect.eqb kind reflect.Struct.
Definition isMap (kind : reflect.Kind) : bool := reflect.eqb kind reflect.Map.

Definition isInt (kind : reflect.Kind) : bool :=
  match kind with
  | reflect.Int | reflect.Int8 | reflect.Int16 | reflect.Int32 | reflect.Int64 => true
  | _ => false
  end.

Definition isUint (kind : reflect.Kind) : bool :=
  match kind with
  | reflect.Uint | reflect.Uint8 | reflect.Uint16 | reflect.Uint32
  | reflect.Uint64 | reflect.Uintptr => true
  | _ => false
  end.

Definition isFloat (kind : reflect.Kind) : bool :=
  match kind with
  | reflect.Float32 | reflect.Float64 => true
  | _ => false
  end.

(** [vf.Type().AssignableTo(reflect.TypeOf(time.Duration(0)))] *)
Definition isDuration (t : rtype) : bool :=
  match t with TDuration => true | _ => false end.

(** [isTextUnmarshaler] on the addressable value [getDirectVal] yields. *)
Definition isTextUnmarshaler (t : rtype) : option string :=
  match t with TText name _ => Some name | _ => None end.

Fixpoint getDirectType (t : rtype) : rtype :=
  match t with
  | TPtr e => getDirectType e
  | _ => t
  end.

(** The loop of [setSliceValue]: [setElem] is [setFieldVal] at the element
    type, [z] the zero element [MakeSlice] provided.  The result is the
    filled slice, or the wrapped error of the first part that fails. *)
Section SliceLoop.
Variable setElem : value -> string -> value * completion (bool * option error).
Variable z : value.

Fixpoint fillSlice (parts : list string) : completion (list value + error) :=
  match parts with
  | [] => Returns (inl [])
  | part :: rest =>
      match setElem z part with
      | (_, Panics p) => Panics p
      | (_, Returns (_, Some err)) => Returns (inr (Wrapf err "cannot set slice value"))
      | (v, Returns (_, None)) =>
          match fillSlice rest with
          | Returns (inl vs) => Returns (inl (v :: vs))
          | other => other
          end
      end
  end.
End SliceLoop.

(** The [for i := 0; i < n; i++] loop of [loopOverFields]: [step] is
    [loadToField], [found] the flag of the loop.  Fields from the first
    failing one on are not visited. *)
Section FieldLoop.
Variable step : StructField rtype -> value -> list string -> value * (bool * option error).
Variable pre : list string.

Fixpoint fieldLoop (fs : list (StructField rtype)) (vs : list value) (found : bool)
  : list value * (bool * option error) :=
  match fs, vs with
  | tf :: fs', vf :: vs' =>
      match step tf vf pre with
      | (vf', (_, Some err)) => (vf' :: vs', (false, Some err))
      | (vf', (foundField, None)) =>
          let '(vs'', r) := fieldLoop fs' vs' (if foundField then true else found) in
          (vf' :: vs'', r)
      end
  | _, _ => (vs, (found, None))
  end.
End FieldLoop.

Section Walk.
Variable X : Externals.
Variable c : Loader.
Variable environ : gmap string string.

(** A walker is [loopOverFields] at a fixed struct type. *)
Definition walker := value -> list string -> value * completion (bool * option error).

Definition setBoolVal (vf : value) (envVal : string) : value * option error :=
  match strconv.ParseBool envVal with
  | (_, Some err) => (vf, Some (NumErr err))
  | (v, None) => (VBool v, None)
  end.

Definition setDurationVal (vf : value) (envVal : string) : value * option error :=
  match ParseDuration X envVal with
  | (_, Some err) => (vf, Some err)
  | (d, None) => (VInt d, None)
  end.

(** [reflect.Value.SetInt]: the 64-bit argument is converted to the
    type of the field. *)
Definition SetInt (t : rtype) (x : Z) : value :=
  match t with
  | TInt w => VInt (toInt (intBits w) x)
  | _ => VInt x
  end.

Definition setIntVal (t : rtype) (vf : value) (raw : string) : value * option error :=
  match strconv.ParseInt raw 64 with
  | (_, Some err) => (vf, Some (NumErr err))
  | (i, None) => (SetInt t i, None)
  end.

Definition SetUint (t : rtype) (x : Z) : value :=
  match t with
  | TUint w => VUint (toUint (uintBits w) x)
  | _ => VUint x
  end.

Definition setUintVal (t : rtype) (vf : value) (raw : string) : value * option error :=
  match strconv.ParseUint raw 64 with
  | (_, Some err) => (vf, Some (NumErr err))
  | (i, None) => (SetUint t i, None)
  end.

Definition SetFloat (t : rtype) (x : Z) : value :=
  match t with
  | TFloat F32 => VFloat (float32 X x)
  | _ => VFloat x
  end.

Definition setFloatVal (t : rtype) (vf : value) (raw : string) : value * option error :=
  match ParseFloat X raw with
  | (_, Some err) => (vf, Some err)
  | (num, None) => (SetFloat t num, None)
  end.

Definition setMapVal (t : rtype) (vf : value) (jsonStr : string) : value * option error :=
  jsonUnmarshal X t jsonStr vf.

(** The first statements of [setFieldVal]: a nil pointer is given a
    fresh zero target. *)
Definition allocIfNil (t : rtype) (fval : value) : value :=
  match t with
  | TPtr e => if IsNil fval then VPtr (Some (zero e)) else fval
  | _ => fval
  end.

Definition setSliceValue
    (setElem : value -> string -> value * completion (bool * option error))
    (elem : rtype) (vf : value) (evnVal : string) : value * completion (option error) :=
  let parts := strings.Split evnVal (arraySep c) in
  if (length parts =? 0)%nat then (vf, Returns None)
  else
    match fillSlice setElem (zero elem) parts with
    | Panics p => (vf, Panics p)
    | Returns (inr err) => (vf, Returns (Some err))
    | Returns (inl slice) => (VSlice (Some slice), Returns None)
    end.

(** [setFieldVal] from the test for a text unmarshaler on, with [fval]
    the value [getDirectVal] returned, of the non-pointer type [t];
    [onSlice] is [setSliceValue] at the element type of [t]. *)
Definition setKind
    (onSlice : value -> string -> value * completion (option error))
    (t : rtype) (fval : value) (envVal : string)
  : value * completion (bool * option error) :=
  let kind := Kind t in
  let ret (set : bool) (r : value * option error) := (r.1, Returns (set, r.2)) in
  match isTextUnmarshaler t with
  | Some name =>
      match UnmarshalText X name fval envVal with
      | (v, Returns err) => (v, Returns (true, err))
      | (v, Panics p) => (v, Panics p)
      end
  | None =>
      if isString kind then (VString envVal, Returns (true, None))
      else if isBool kind then ret true (setBoolVal fval envVal)
      else if isDuration t then ret true (setDurationVal fval envVal)
      else if isInt kind then ret true (setIntVal t fval envVal)
      else if isUint kind then ret true (setUintVal t fval envVal)
      else if isFloat kind then ret true (setFloatVal t fval envVal)
      else if isSliceField kind then
        match onSlice fval envVal with
        | (v, Returns err) => (v, Returns (true, err))
        | (v, Panics p) => (v, Panics p)
        end
      else if isMap kind then ret true (setMapVal t fval envVal)
      else if isStruct kind then (fval, Returns (false, None))
      else (fval, Returns (false, Some (Unsupported t)))
  end.

(** [setFieldVal] after the allocation: [getDirectVal] follows the
    pointers of [fval], and what is assigned lands in the last target.
    Behind a nil pointer [getDirectVal] ends on the zero [reflect.Value],
    no case before [isDuration] takes it, and [Type] panics on it. *)
Fixpoint setDirectVal (t : rtype) (fval : value) (envVal : string) {struct t}
  : value * completion (bool * option error) :=
  match t with
  | TPtr e =>
      match fval with
      | VPtr (Some target) =>
          let '(target', r) := setDirectVal e target envVal in
          (VPtr (Some target'), r)
      | _ => (fval, Panics (ValueError "reflect.Value.Type" reflect.Invalid))
      end
  | TSlice e =>
      setKind
        (setSliceValue (fun v part => setDirectVal e (allocIfNil e v) part) e)
        t fval envVal
  | _ => setKind (fun v _ => (v, Returns None)) t fval envVal
  end.

Definition setFieldVal (t : rtype) (canSet : bool) (fval : value) (envVal : string)
  : value * completion (bool * option error) :=
  if negb canSet then (fval, Returns (false, Some (CannotBeSet t)))
  else setDirectVal t (allocIfNil t fval) envVal.

(** [recursiveLoadToStruct(s, prefix)] for an [s] of dynamic type [ty];
    [loop] is [loopOverFields] at [getDirectType ty].  What
    [s] points to is changed in place, so the new [s] is returned.
    [vPtr.Elem()] of a nil pointer is the zero [reflect.Value], on
    which [NumField] panics. *)
Definition recursiveLoadToStruct (loop : walker) (ty : rtype) (s : value)
    (pre : list string) : value * (bool * option error) :=
  if negb (reflect.eqb (Kind ty) reflect.Pointer) then (s, (false, Some (NotAPointer ty)))
  else
    let '(s', r) :=
      match s with
      | VPtr (Some v) => let '(v', r) := loop v pre in (VPtr (Some v'), r)
      | _ => (s, Panics (ValueError "reflect.Value.NumField" reflect.Invalid))
      end in
    match r with
    | Returns r => (s', r)
    | Panics p => (s', (false, Some (StructPanic ty (strings.Join pre (sep c)) p)))
    end.

(** [setStructVal(vf, prefix)] for a field [vf] of type [t].  A nil
    pointer gets a fresh record, which is stored only when something was
    found in it; otherwise [newVf] is the address of the field itself
    and the field is changed in place. *)
Definition setStructVal (loop : walker) (t : rtype) (vf : value) (pre : list string)
  : value * (bool * option error) :=
  let needSet := reflect.eqb (Kind t) reflect.Pointer && IsNil vf in
  let '(ty, newVf) :=
    if needSet then (t, VPtr (Some (zero (Elem t))))
    else (TPtr t, VPtr (Some vf)) in
  match recursiveLoadToStruct loop ty newVf pre with
  | (newVf', (_, Some err)) =>
      (if needSet then vf else pointee newVf' vf, (false, Some err))
  | (newVf', (found, None)) =>
      (if needSet then (if found then newVf' else vf) else pointee newVf' vf,
       (found, None))
  end.

(** [loadToField(tf, vf, prefix)]; [loop] is [loopOverFields] at the
    direct type of the field. *)
Definition loadToField (loop : walker) (tf : StructField rtype) (vf : value)
    (pre : list string) : value * (bool * option error) :=
  if negb (CanSet tf) then (vf, (false, None))
  else
    let t := getDirectType (Type_ tf) in
    let '(envKey, nPrefix) := buildEnvKey c tf pre in
    let recovered p :=
      (false, Some (FieldPanic t (strings.Join nPrefix (sep c)) p)) in
    let descend vf :=
      if isStruct (Kind t) then setStructVal loop (Type_ tf) vf nPrefix
      else (vf, (false, None)) in
    match LookupEnv environ envKey with
    | Some envVal =>
        match setFieldVal (Type_ tf) (CanSet tf) vf envVal with
        | (vf', Panics p) => (vf', recovered p)
        | (vf', Returns (_, Some err1)) =>
            (vf', (false, Some (Wrapf err1 ("cannot set field " ++ envKey ++ " value"))))
        | (vf', Returns (true, None)) => (vf', (true, None))
        | (vf', Returns (false, None)) => descend vf'
        end
    | None => descend vf
    end.

(** [loopOverFields(c.getDirectType(T), v, prefix)]: the pointers of [T]
    are stripped as [getDirectType] does, a defined type gives way to
    its underlying struct, and [NumField] panics unless [v] is a struct. *)
Fixpoint loopOverFields (T : rtype) (v : value) (pre : list string) {struct T}
  : value * completion (bool * option error) :=
  match T with
  | TPtr e => loopOverFields e v pre
  | TText _ u => loopOverFields u v pre
  | TStruct fs =>
      match v with
      | VStruct vs =>
          let '(vs', r) :=
            fieldLoop (fun tf => loadToField (loopOverFields (Type_ tf)) tf) pre fs vs false in
          (VStruct vs', Returns r)
      | _ => (v, Panics (ValueError "reflect.Value.NumField" (kindOf v)))
      end
  | _ => (v, Panics (ValueError "reflect.Value.NumField" (Kind T)))
  end.

(** [loadToField] as [loopOverFields] calls it. *)
Definition visit (tf : StructField rtype) : value -> list string -> value * (bool * option error) :=
  loadToField (loopOverFields (Type_ tf)) tf.

(** [Load(s)] for an [s] of dynamic type [ty]: [s] after the call, and
    the error returned. *)
Definition Load (ty : rtype) (s : value) : value * option error :=
  let '(s', (_, err)) := recursiveLoadToStruct (loopOverFields ty) ty s [] in
  (s', err).

End Walk.

(** ** The target of the examples: [BasicConfig] of config_test.go *)

Definition exported (name : string) (t : rtype) (tag : list (string * string))
  : StructField rtype := mkField name "" t tag false.

Definition BasicConfig : rtype :=
  TStruct
    [ exported "Host" TString [("env", "HOST")];
      exported "Port" (TInt I) [("env", "PORT")];
      exported "Timeout" TDuration [];
      exported "Debug" TBool [];
      exported "Numbers" (TSlice (TInt I)) [];
      exported "Settings" (TMap TString TString) [] ].

(** [&x] for a variable holding [v]. *)
Definition addr (v : value) : value := VPtr (Some v).

(** Foreign code for closed examples that never reach it: every foreign
    parser refuses its input and [UnmarshalText] does nothing. *)
Definition noForeign : Externals := {|
  ParseFloat := fun s => (0, Some (Foreign "strconv.ParseFloat"));
  float32 := fun bits => bits;
  ParseDuration := fun s => (0, Some (Foreign "time.ParseDuration"));
  jsonUnmarshal := fun _ _ v => (v, Some (Foreign "json.Unmarshal"));
  UnmarshalText := fun _ v _ => (v, Returns None)
|}.

(** The name a field contributes when it has no [env] tag. *)
Definition baseName (c : Loader) (tf : StructField rtype) : string :=
  match Lookup (Tag tf) "alias" with
  | Some a => a
  | None =>
      match fieldNameTransformer c with
      | Some f => f (Name tf)
      | None => Name tf
      end
  end.

(** ** What the walk can reach *)

(** The fields [loopOverFields] enumerates at a type. *)
Fixpoint structFields (t : rtype) : option (list (StructField rtype)) :=
  match t with
  | TPtr e => structFields e
  | TText _ u => structFields u
  | TStruct fs => Some fs
  | _ => None
  end.

(** The fields of the zero value of a struct. *)
Definition zeros (fs : list (StructField rtype)) : list value :=
  map (fun tf => zero (Type_ tf)) fs.

(** The test of [loadToField] before it calls [setStructVal]. *)
Definition descends (t : rtype) : bool := isStruct (Kind (getDirectType t)).

(** The fields whose text [setFieldVal] takes or refuses: all but the
    plain structs, which it leaves to [setStructVal]. *)
Definition takesText (t : rtype) : bool :=
  match getDirectType t with
  | TStruct _ => false
  | _ => true
  end.

(** [reach c fs pre p]: the field found below a record with the fields
    [fs] by following the field indices [p], and the segments with which
    the walk, started with the segments [pre], looks at it.  Only
    assignable fields are looked at, and only records are entered. *)
Fixpoint reach (c : Loader) (fs : list (StructField rtype)) (pre : list string)
    (p : list nat) : option (StructField rtype * list string) :=
  match p with
  | [] => None
  | i :: p' =>
      match fs !! i with
      | None => None
      | Some tf =>
          if negb (CanSet tf) then None
          else
            match p' with
            | [] => Some (tf, pre)
            | _ :: _ =>
                if descends (Type_ tf) then
                  match structFields (Type_ tf) with
                  | Some fs' => reach c fs' (buildEnvKey c tf pre).2 p'
                  | None => None
                  end
                else None
            end
      end
  end.

(** The key the walk looks up for the field at [p]. *)
Definition keyAt (c : Loader) (fs : list (StructField rtype)) (pre : list string)
    (p : list nat) : option string :=
  match reach c fs pre p with
  | Some (tf, pre') => Some (buildEnvKey c tf pre').1
  | None => None
  end.

(** No key the walk would look up below [fs] is set. *)
Definition silent (environ : gmap string string) (c : Loader)
    (fs : list (StructField rtype)) (pre : list string) : Prop :=
  forall p k, keyAt c fs pre p = Some k -> LookupEnv environ k = None.

(** No key the walk would look up below [fs] is set, except perhaps at
    the path [p]. *)
Definition only (environ : gmap string string) (c : Loader)
    (fs : list (StructField rtype)) (pre : list string) (p : list nat) : Prop :=
  forall q k, q <> p -> keyAt c fs pre q = Some k -> LookupEnv environ k = None.

(** Every record the walk enters below [fs] is held by value or behind
    one pointer: no assignable field is a pointer to a pointer to a
    record. *)
Definition shallow (c : Loader) (fs : list (StructField rtype)) (pre : list string) : Prop :=
  forall p tf pre',
    reach c fs pre p = Some (tf, pre') ->
    descends (Type_ tf) = true ->
    Kind (Type_ tf) = reflect.Struct
    \/ exists e, Type_ tf = TPtr e /\ Kind e = reflect.Struct.

(** A field of type [t] that holds the record [v]: the record itself, or
    a pointer to it. *)
Definition held (t : rtype) (v : value) : value :=
  match t with
  | TPtr _ => VPtr (Some v)
  | _ => v
  end.

(** The value of a field of type [t] after [setStructVal] has walked its
    record to [v]: a struct is changed in place, a nil pointer is set
    only if something was found. *)
Definition kept (t : rtype) (found : bool) (v : value) : value :=
  match t with
  | TPtr _ => if found then VPtr (Some v) else VPtr None
  | _ => v
  end.

(** The zero record with the fields [fs], except that the field at the
    path [p] holds [x] and the pointers on the way to it are allocated. *)
Fixpoint plantFields (fs : list (StructField rtype)) (p : list nat) (x : value)
  : list value :=
  match p with
  | [] => zeros fs
  | i :: p' =>
      match fs !! i with
      | None => zeros fs
      | Some tf =>
          <[ i := match p' with
                  | [] => x
                  | _ :: _ =>
                      match structFields (Type_ tf) with
                      | Some fs' => held (Type_ tf) (VStruct (plantFields fs' p' x))
                      | None => zero (Type_ tf)
                      end
                  end ]> (zeros fs)
      end
  end.


(** What an error of the walk below [fs] tells: it reports a recovered
    panic, or it is the error of [setFieldVal] wrapped with a key that
    the walk looks up below [fs] and that is set. *)
Definition blames (environ : gmap string string) (c : Loader)
    (fs : list (StructField rtype)) (pre : list string) (e : error) : Prop :=
  (exists t joined p, e = StructPanic t joined p)
  \/ (exists t joined p, e = FieldPanic t joined p)
  \/ (exists q k text cause,
        keyAt c fs pre q = Some k
        /\ LookupEnv environ k = Some text
        /\ e = Wrapf cause ("cannot set field " ++ k ++ " value")).

(** ** configtype/base64.go *)

Module configtype.

(** [UnmarshalText] of [Base64]; [DecodeString] stands for
    [base64.StdEncoding.DecodeString], [b] for the string behind the
    receiver. *)
Definition Base64_UnmarshalText (DecodeString : string -> string * option error)
    (b : value) (data : string) : value * completion (option error) :=
  if (String.length data =? 0)%nat then (b, Returns None)
  else
    match DecodeString data with
    | (_, Some err) => (b, Returns (Some (Wrapf err "failed to decode base64 string")))
    | (decoded, None) => (VString decoded, Returns None)
    end.

End configtype.

(** ** Types that can be loaded again *)

(** The types for which the conversions of this package decide alone
    what a field holds after a visit: no map (the JSON decoder fills the
    map that is there), no type with its own [UnmarshalText], and no
    pointer to a record; a struct counts with its exported fields. *)
Fixpoint repeatable (t : rtype) : bool :=
  match t with
  | TMap _ _ => false
  | TText _ _ => false
  | TStruct fs => forallb (fun tf => negb (CanSet tf) || repeatable (Type_ tf)) fs
  | TPtr e => negb (descends e) && repeatable e
  | _ => true
  end.

(** ** Decimal numerals *)

(** What the parsers of [strconv] are measured against: the number a
    string of decimal digits writes, read by position (a digit [d] with
    [k] bytes after it counts [d * 10 ^ k]). *)
Fixpoint decimalValue (s : string) : Z :=
  match s with
  | EmptyString => 0
  | String ch rest =>
      default 0 (strconv.digit ch) * 10 ^ Z.of_nat (String.length rest) + decimalValue rest
  end.

Fixpoint allDigits (s : string) : bool :=
  match s with
  | EmptyString => true
  | String ch rest =>
      match strconv.digit ch with Some _ => allDigits rest | None => false end
  end.

(** An unsigned numeral is one decimal digit or more and nothing else. *)
Definition unsignedNumeral (s : string) : option Z :=
  match s with
  | EmptyString => None
  | _ => if allDigits s then Some (decimalValue s) else None
  end.

(** A signed numeral is an unsigned one, after one sign at most. *)
Definition signedNumeral (s : string) : option Z :=
  match s with
  | EmptyString => None
  | String ch rest =>
      if Ascii.eqb ch "+"%char then unsignedNumeral rest
      else if Ascii.eqb ch "-"%char then Z.opp <$> unsignedNumeral rest
      else unsignedNumeral s
  end.

(** ** The shape of names *)

(** A name with each of its letters in upper case. *)
Fixpoint upper (s : string) : string :=
  match s with
  | EmptyString => EmptyString
  | String ch rest => String (unicode.ToUpper ch) (upper rest)
  end.

(** A name with its underscores left out. *)
Fixpoint withoutUnderscores (s : string) : string :=
  match s with
  | EmptyString => EmptyString
  | String ch rest =>
      if Ascii.eqb ch "_"%char then withoutUnderscores rest
      else String ch (withoutUnderscores rest)
  end.

(** No letter of the name is in lower case. *)
Fixpoint noLower (s : string) : bool :=
  match s with
  | EmptyString => true
  | String ch rest => negb (unicode.IsLower ch) && noLower rest
  end.

(** No underscore of the name stands next to another; [after] tells
    whether an underscore stands before the name. *)
Fixpoint underscoresApart (after : bool) (s : string) : bool :=
  match s with
  | EmptyString => true
  | String ch rest =>
      if Ascii.eqb ch "_"%char then negb after && underscoresApart true rest
      else underscoresApart false rest
  end.

(** ** The options the package provides *)

(** A call of one of the four [With...] functions. *)
Inductive setting :=
| Prefix (p : string)
| Separator (s : string)
| ArraySeparator (s : string)
| KeyTransformer (transformer : option (string -> string)).

Definition optionOf (o : setting) : Option :=
  match o with
  | Prefix p => WithPrefix p
  | Separator s => WithSeparator s
  | ArraySeparator s => WithArraySeparator s
  | KeyTransformer t => WithKeyTransformer t
  end.

Definition prefixOf (o : setting) : option string :=
  match o with Prefix p => Some p | _ => None end.
Definition separatorOf (o : setting) : option string :=
  match o with Separator s => Some s | _ => None end.
Definition arraySeparatorOf (o : setting) : option string :=
  match o with ArraySeparator s => Some s | _ => None end.
Definition keyTransformerOf (o : setting) : option (option (string -> string)) :=
  match o with KeyTransformer t => Some t | _ => None end.

(** ** Induction over types *)

Lemma rtype_induction (P : rtype -> Prop) :
  P TBool -> (forall w, P (TInt w)) -> (forall w, P (TUint w)) ->
  (forall w, P (TFloat w)) -> P TString -> P TDuration ->
  (forall k, P (TOther k)) ->
  (forall e, P e -> P (TSlice e)) ->
  (forall k e, P k -> P e -> P (TMap k e)) ->
  (forall fs, Forall (fun tf => P (Type_ tf)) fs -> P (TStruct fs)) ->
  (forall e, P e -> P (TPtr e)) ->
  (forall name u, P u -> P (TText name u)) ->
  forall t, P t.
Proof.
  intros HB HI HU HF HS HD HO Hsl Hmap Hst Hptr Htxt.
  fix IH 1.
  intros [ | w | w | w | | | k | e | k e | fs | e | name u ].
  - exact HB.
  - apply HI.
  - apply HU.
  - apply HF.
  - exact HS.
  - exact HD.
  - apply HO.
  - apply Hsl, IH.
  - apply Hmap; apply IH.
  - apply Hst. induction fs as [ | tf fs IHfs ]; constructor; [apply IH | exact IHfs].
  - apply Hptr, IH.
  - apply Htxt, IH.
Qed.

(** ** strings and strconv *)

Lemma HasPrefix_length s sub :
  strings.HasPrefix s sub = true -> (String.length sub <= String.length s)%nat.
Proof.
  revert s. induction sub as [ | a sub IH ]; intros [ | b s ] H; simpl in *;
    try lia; try discriminate.
  apply andb_prop in H as [_ H]. specialize (IH s H). lia.
Qed.

(** An occurrence lies within the string. *)
Lemma Index_bound s sub (i : nat) :
  strings.Index s sub = Some i -> (i + String.length sub <= String.length s)%nat.
Proof.
  revert i. induction s as [ | b s IH ]; intros i; cbn [strings.Index].
  - destruct (strings.HasPrefix "" sub) eqn:E; [ | discriminate].
    intros [= <-]. apply HasPrefix_length in E. simpl in *. lia.
  - destruct (strings.HasPrefix (String b s) sub) eqn:E.
    + intros [= <-]. apply HasPrefix_length in E. simpl in *. lia.
    + destruct (strings.Index s sub) as [j | ]; [ | discriminate].
      intros [= <-]. specialize (IH j eq_refl). simpl. lia.
Qed.

Lemma skip_length (n : nat) s :
  String.length (strings.skip n s) = (String.length s - n)%nat.
Proof.
  revert s. induction n as [ | n IH ]; intros [ | b s ]; simpl; try reflexivity; try lia.
  apply IH.
Qed.

(** The loop of [strings.Count] is over once the string is used up: any
    fuel from the length of the string on gives the same count. *)
Lemma countLoop_fuel sub :
  sub <> "" ->
  forall (f1 f2 : nat) s,
    (String.length s <= f1)%nat -> (String.length s <= f2)%nat ->
    strings.countLoop f1 s sub = strings.countLoop f2 s sub.
Proof.
  intros Hsub.
  assert (Hempty : forall f, strings.countLoop f "" sub = O).
  { intros [ | f ]; [reflexivity | ]. cbn. by destruct sub. }
  induction f1 as [ | f1 IH ]; intros f2 s H1 H2.
  - destruct s; simpl in H1; [ | lia]. by rewrite !Hempty.
  - destruct f2 as [ | f2 ].
    + destruct s; simpl in H2; [ | lia]. by rewrite !Hempty.
    + cbn [strings.countLoop]. destruct (strings.Index s sub) as [i | ] eqn:E; [ | reflexivity].
      f_equal. apply Index_bound in E.
      assert (0 < String.length sub)%nat by (destruct sub; [contradiction | simpl; lia]).
      apply IH; rewrite skip_length; lia.
Qed.

Lemma parseUintLoop_nonneg s n maxVal r :
  0 <= n -> strconv.parseUintLoop s n maxVal = (r, None) -> 0 <= r.
Proof.
  revert n. induction s as [ | ch s IH ]; intros n Hn; cbn [strconv.parseUintLoop].
  - by intros [= <-].
  - destruct (strconv.digit ch) as [d | ]; [ | discriminate].
    destruct (_ <=? n); [discriminate | ].
    destruct (_ || _); [discriminate | ].
    apply IH. apply Z.mod_pos_bound. lia.
Qed.

Lemma parseUintLoop_range s n maxVal r :
  strconv.parseUintLoop s n maxVal = (r, Some strconv.ErrRange) -> r = maxVal.
Proof.
  revert n. induction s as [ | ch s IH ]; intros n; cbn [strconv.parseUintLoop].
  - discriminate.
  - destruct (strconv.digit ch) as [d | ]; [ | discriminate].
    destruct (_ <=? n); [by intros [= <-] | ].
    destruct (_ || _); [by intros [= <-] | ].
    apply IH.
Qed.

(** What [strconv.ParseInt] accepts at 64 bits is an [int64]. *)
Lemma ParseInt_64_range s i :
  strconv.ParseInt s 64 = (i, None) -> - 2 ^ 63 <= i <= 2 ^ 63 - 1.
Proof.
  unfold strconv.ParseInt. destruct s as [ | c0 rest ]; [discriminate | ].
  set (signed := if Ascii.eqb c0 "+" then _ else _). destruct signed as [neg s].
  unfold strconv.ParseUint. destruct s as [ | c1 s1 ].
  - discriminate.
  - destruct (strconv.parseUintLoop (String c1 s1) 0 (2 ^ 64 - 1)) as [un [[ | ] | ]] eqn:E.
    + discriminate.
    + apply parseUintLoop_range in E. subst un. by destruct neg.
    + apply parseUintLoop_nonneg in E; [ | lia].
      change (2 ^ (64 - 1)) with (2 ^ 63).
      destruct neg; cbn [negb andb].
      * destruct (Z.ltb_spec (2 ^ 63) un); [discriminate | ]. intros [= <-]. lia.
      * destruct (Z.leb_spec (2 ^ 63) un); [discriminate | ]. intros [= <-]. lia.
Qed.

(** ** Name derivation *)

Lemma getFieldName_env c tf tag :
  Lookup (Tag tf) "env" = Some tag -> getFieldName c tf = (tag, true).
Proof. unfold getFieldName. intros ->. reflexivity. Qed.

Lemma getFieldName_base c tf :
  Lookup (Tag tf) "env" = None -> getFieldName c tf = (baseName c tf, false).
Proof.
  unfold getFieldName, baseName. intros ->.
  destruct (Lookup (Tag tf) "alias"); [reflexivity | ].
  destruct (fieldNameTransformer c); reflexivity.
Qed.

Lemma buildEnvKey_anonymous c tf parentKeys :
  Anonymous tf = true ->
  buildEnvKey c tf parentKeys = (joinKeys c parentKeys, parentKeys).
Proof. unfold buildEnvKey. intros ->. reflexivity. Qed.

Lemma buildEnvKey_exact c tf parentKeys tag :
  Anonymous tf = false -> Lookup (Tag tf) "env" = Some tag ->
  buildEnvKey c tf parentKeys = (tag, (parentKeys ++ [tag])%list).
Proof.
  unfold buildEnvKey. intros -> Henv. rewrite (getFieldName_env _ _ _ Henv). reflexivity.
Qed.

Lemma buildEnvKey_composed c tf parentKeys :
  Anonymous tf = false -> Lookup (Tag tf) "env" = None ->
  buildEnvKey c tf parentKeys =
    (joinKeys c (parentKeys ++ [baseName c tf]), (parentKeys ++ [baseName c tf])%list).
Proof.
  unfold buildEnvKey. intros -> Henv. rewrite (getFieldName_base _ _ Henv). reflexivity.
Qed.

(** [joinKeys] when nothing is empty: the prefix and the names, joined. *)
Lemma joinKeys_full c names :
  prefix c <> "" -> Forall (fun name => name <> "") names ->
  joinKeys c names = strings.Join (prefix c :: names) (sep c).
Proof.
  intros Hp Hn. unfold joinKeys.
  destruct (String.eqb_spec (prefix c) "") as [E | _]; [contradiction | ].
  f_equal. simpl. f_equal.
  induction Hn as [ | name names Hname _ IH ]; [reflexivity | ].
  rewrite filter_cons. destruct (decide (name <> "")); [ | contradiction ].
  f_equal. exact IH.
Qed.

(** The cases of the comment on [UperCaseTransformer]. *)
Example UperCaseTransformer_cases :
  UperCaseTransformer "DBConnection" = "DB_CONNECTION"
  /\ UperCaseTransformer "AKey" = "A_KEY"
  /\ UperCaseTransformer "KeyA" = "KEY_A"
  /\ UperCaseTransformer "ThisISMyKey" = "THIS_IS_MY_KEY".
Proof. repeat split. Qed.

(** [TestPrefixAndSeparator]: with the prefix "APP" and the separator
    ".", the field [Host] of the field [DB] is looked up as "APP.DB.HOST". *)
Example key_with_prefix_and_separator :
  (buildEnvKey (New [WithPrefix "APP"; WithSeparator "."]) (exported "Host" TString [])
     (buildEnvKey (New [WithPrefix "APP"; WithSeparator "."])
        (exported "DB" (TStruct [exported "Host" TString []]) []) []).2).1
  = "APP.DB.HOST".
Proof. reflexivity. Qed.

(** C1, as the claim states it, fails: an embedded field that carries an
    [env] tag does not get the tag as its key.  [buildEnvKey] tests
    [tf.Anonymous] first and never reads the tags of an embedded field. *)
Lemma C1_embedded_ignores_exact_name :
  Lookup (Tag (mkField "Base" "" (TStruct []) [("env", "HOST")] true)) "env" = Some "HOST"
  /\ (buildEnvKey (New []) (mkField "Base" "" (TStruct []) [("env", "HOST")] true) ["DB"]).1
       = "DB"
  /\ (buildEnvKey (New []) (mkField "Base" "" (TStruct []) [("env", "HOST")] true) ["DB"]).1
       <> "HOST".
Proof. split; [reflexivity | split; [reflexivity | discriminate]]. Qed.

(** C1, amended to the fields that are not embedded.  For such a field
    an [env] tag is the key verbatim, whatever the loader and the parent
    segments are; with an [alias] tag only, or with no tag, the key is
    [joinKeys] of the parent segments and the alias, respectively the
    transformed field name (the field name itself without a transformer):
    the non-empty prefix and the non-empty names joined by the separator.
    An embedded field gets [joinKeys] of the parent segments, tags or not. *)
Theorem C1_key_derivation (c : Loader) (tf : StructField rtype) (parentKeys : list string) :
  Anonymous tf = false ->
  (forall tag, Lookup (Tag tf) "env" = Some tag ->
     forall c' parentKeys', (buildEnvKey c' tf parentKeys').1 = tag)
  /\ (forall a, Lookup (Tag tf) "env" = None -> Lookup (Tag tf) "alias" = Some a ->
        (buildEnvKey c tf parentKeys).1 = joinKeys c (parentKeys ++ [a]))
  /\ (Lookup (Tag tf) "env" = None -> Lookup (Tag tf) "alias" = None ->
        (buildEnvKey c tf parentKeys).1 =
          joinKeys c (parentKeys ++
            [match fieldNameTransformer c with Some f => f (Name tf) | None => Name tf end]))
  /\ (forall tf', Anonymous tf' = true ->
        (buildEnvKey c tf' parentKeys).1 = joinKeys c parentKeys).
Proof.
  intros Hanon. repeat split.
  - intros tag Henv c' parentKeys'. by rewrite (buildEnvKey_exact _ _ _ _ Hanon Henv).
  - intros a Henv Halias. rewrite (buildEnvKey_composed _ _ _ Hanon Henv).
    unfold baseName. by rewrite Halias.
  - intros Henv Halias. rewrite (buildEnvKey_composed _ _ _ Hanon Henv).
    unfold baseName. by rewrite Halias.
  - intros tf' Hanon'. by rewrite (buildEnvKey_anonymous _ _ _ Hanon').
Qed.

Lemma C1_key_derivation_witness :
  let c := New [WithPrefix "APP"; WithSeparator "."] in
  let tf := exported "Port" (TInt I) [("alias", "port")] in
  (buildEnvKey c tf ["DB"]).1 = "APP.DB.port".
Proof.
  intros c tf.
  pose proof (C1_key_derivation c tf ["DB"] eq_refl) as (_ & Halias & _).
  rewrite (Halias "port" eq_refl eq_refl). reflexivity.
Defined.

(** C3, as the claim states it, fails: for an [env]-tagged field that is
    not embedded, [buildEnvKey] appends the tag to the segments before it
    looks at [exactly], and returns the longer stack. *)
Lemma C3_exact_name_is_pushed :
  Lookup (Tag (exported "Host" TString [("env", "HOST")])) "env" = Some "HOST"
  /\ (buildEnvKey (New []) (exported "Host" TString [("env", "HOST")]) ["DB"]).2
       = ["DB"; "HOST"]
  /\ (buildEnvKey (New []) (exported "Host" TString [("env", "HOST")]) ["DB"]).2
       <> ["DB"].
Proof. split; [reflexivity | split; [reflexivity | discriminate]]. Qed.

(** C3, amended.  For an [env]-tagged field that is not embedded the
    returned stack is the parent stack with the tag appended as its last
    segment, and a member of such a field that has no [env] tag of its
    own composes its key from that longer stack.  Only an embedded field
    returns the parent stack as it is. *)
Theorem C3_exact_name_segments (c : Loader) (tf : StructField rtype)
    (parentKeys : list string) (tag : string) :
  Anonymous tf = false -> Lookup (Tag tf) "env" = Some tag ->
  (buildEnvKey c tf parentKeys).2 = (parentKeys ++ [tag])%list
  /\ (forall m, Anonymous m = false -> Lookup (Tag m) "env" = None ->
        (buildEnvKey c m (buildEnvKey c tf parentKeys).2).1 =
          joinKeys c (parentKeys ++ [tag; baseName c m]))
  /\ (forall tf', Anonymous tf' = true -> (buildEnvKey c tf' parentKeys).2 = parentKeys).
Proof.
  intros Hanon Henv. rewrite (buildEnvKey_exact _ _ _ _ Hanon Henv). simpl.
  repeat split.
  - intros m Hm Hmenv. rewrite (buildEnvKey_composed _ _ _ Hm Hmenv). simpl.
    by rewrite <- app_assoc.
  - intros tf' Hanon'. by rewrite (buildEnvKey_anonymous _ _ _ Hanon').
Qed.

Lemma C3_exact_name_segments_witness :
  let tf := exported "DB" (TStruct [exported "Host" TString []]) [("env", "DATABASE")] in
  (buildEnvKey (New []) (exported "Host" TString []) (buildEnvKey (New []) tf []).2).1
    = "DATABASE_HOST".
Proof.
  intros tf.
  pose proof (C3_exact_name_segments (New []) tf [] "DATABASE" eq_refl eq_refl)
    as (_ & Hmember & _).
  rewrite (Hmember (exported "Host" TString []) eq_refl eq_refl). reflexivity.
Defined.

(** ** The walk, one level at a time *)

Lemma visit_loadToField X c environ tf :
  visit X c environ tf = loadToField X c environ (loopOverFields X c environ (Type_ tf)) tf.
Proof. reflexivity. Qed.

Section WalkFacts.
Variable X : Externals.
Variable c : Loader.
Variable environ : gmap string string.

Local Abbreviation visit := (visit X c environ).

Lemma loopOverFields_struct fs vs pre :
  loopOverFields X c environ (TStruct fs) (VStruct vs) pre =
    (VStruct (fieldLoop visit pre fs vs false).1, Returns (fieldLoop visit pre fs vs false).2).
Proof. simpl. fold visit. by destruct (fieldLoop visit pre fs vs false). Qed.

Lemma loopOverFields_direct t v pre :
  loopOverFields X c environ t v pre = loopOverFields X c environ (getDirectType t) v pre.
Proof. induction t using rtype_induction; try reflexivity. simpl. exact IHt. Qed.

(** An error ends the loop with [found = false]. *)
Lemma fieldLoop_error step pre fs vs found vs' b e :
  fieldLoop step pre fs vs found = (vs', (b, Some e)) -> b = false.
Proof.
  revert vs found vs'. induction fs as [ | tf fs IH ]; intros vs found vs' H.
  - simpl in H. congruence.
  - destruct vs as [ | vf vs ]; simpl in H; [congruence | ].
    destruct (step tf vf pre) as [vf' [ff [err | ]]].
    + congruence.
    + destruct (fieldLoop step pre fs vs (if ff then true else found)) as [vs'' r] eqn:E.
      inversion H; subst. eapply IH. exact E.
Qed.

(** A struct held by value is walked in place. *)
Lemma setStructVal_struct fs vs pre :
  setStructVal c (loopOverFields X c environ (TStruct fs)) (TStruct fs) (VStruct vs) pre =
    (VStruct (fieldLoop visit pre fs vs false).1, (fieldLoop visit pre fs vs false).2).
Proof.
  unfold setStructVal, recursiveLoadToStruct. cbn [Kind reflect.eqb andb negb].
  rewrite loopOverFields_struct.
  destruct (fieldLoop visit pre fs vs false) as [vs' [b [e | ]]] eqn:E; cbn.
  - by rewrite (fieldLoop_error _ _ _ _ _ _ _ _ E).
  - reflexivity.
Qed.

(** A value for a plain struct field is not taken by [setFieldVal]. *)
Lemma setFieldVal_struct fs vf envVal :
  setFieldVal X c (TStruct fs) true vf envVal = (vf, Returns (false, None)).
Proof. reflexivity. Qed.

End WalkFacts.

(** C6.  For an embedded field [buildEnvKey] answers with [joinKeys] of
    the parent segments and hands back the parent segments themselves; a
    member therefore derives, below the embedded field, the key it would
    derive as a field of the parent.  Accordingly the walk of an embedded
    struct is the loop over its members with the segments of the parent. *)
Theorem C6_embedded_adds_no_segment (X : Externals) (c : Loader)
    (environ : gmap string string) (tf : StructField rtype) (parentKeys : list string) :
  Anonymous tf = true ->
  buildEnvKey c tf parentKeys = (joinKeys c parentKeys, parentKeys)
  /\ (forall m, buildEnvKey c m (buildEnvKey c tf parentKeys).2 = buildEnvKey c m parentKeys)
  /\ (forall fs vs, CanSet tf = true -> Type_ tf = TStruct fs ->
        visit X c environ tf (VStruct vs) parentKeys =
          (VStruct (fieldLoop (visit X c environ) parentKeys fs vs false).1,
           (fieldLoop (visit X c environ) parentKeys fs vs false).2)).
Proof.
  intros Hanon. rewrite (buildEnvKey_anonymous _ _ _ Hanon). repeat split.
  intros fs vs Hset Htype. unfold visit at 1, loadToField.
  rewrite Hset, (buildEnvKey_anonymous _ _ _ Hanon), Htype. cbn [negb getDirectType Kind isStruct reflect.eqb].
  destruct (LookupEnv environ (joinKeys c parentKeys)) as [envVal | ].
  - rewrite setFieldVal_struct. apply setStructVal_struct.
  - apply setStructVal_struct.
Qed.

Lemma C6_embedded_adds_no_segment_witness :
  (buildEnvKey (New []) (exported "Host" TString [])
     (buildEnvKey (New []) (mkField "Base" "" (TStruct [exported "Host" TString []]) [] true)
        ["DB"]).2).1 = "DB_HOST".
Proof.
  pose proof (C6_embedded_adds_no_segment noForeign (New []) ∅
                (mkField "Base" "" (TStruct [exported "Host" TString []]) [] true)
                ["DB"] eq_refl) as (_ & Hmember & _).
  rewrite Hmember. reflexivity.
Defined.

(** ** Integers *)

(** What [setIntVal] refuses is what [strconv.ParseInt] refuses at 64
    bits: the width of the field plays no part in the test. *)
Lemma setIntVal_error (t : rtype) (vf : value) (raw : string) :
  (setIntVal t vf raw).2 = NumErr <$> (strconv.ParseInt raw 64).2.
Proof. unfold setIntVal. by destruct (strconv.ParseInt raw 64) as [i [err | ]]. Qed.

Lemma setUintVal_error (t : rtype) (vf : value) (raw : string) :
  (setUintVal t vf raw).2 = NumErr <$> (strconv.ParseUint raw 64).2.
Proof. unfold setUintVal. by destruct (strconv.ParseUint raw 64) as [i [err | ]]. Qed.

(** An integer field whose key is set: the text is parsed at 64 bits
    whatever the width [w] of the field; a refusal of the parser comes
    back with the key, and an accepted number is cut to the width. *)
Lemma visit_int_field (X : Externals) (c : Loader) (environ : gmap string string)
    (tf : StructField rtype) (w : intSize) (vf : value) (pre : list string) (raw : string) :
  CanSet tf = true -> Type_ tf = TInt w ->
  LookupEnv environ (buildEnvKey c tf pre).1 = Some raw ->
  visit X c environ tf vf pre =
    match strconv.ParseInt raw 64 with
    | (_, Some err) =>
        (vf, (false, Some (Wrapf (NumErr err)
                             ("cannot set field " ++ (buildEnvKey c tf pre).1 ++ " value"))))
    | (i, None) => (VInt (toInt (intBits w) i), (true, None))
    end.
Proof.
  intros Hset Htype Hkey. rewrite visit_loadToField. unfold loadToField.
  rewrite Hset, Htype. destruct (buildEnvKey c tf pre) as [envKey nPrefix].
  cbn [fst negb] in *. rewrite Hkey. unfold setFieldVal. cbn [negb allocIfNil].
  destruct w; cbn; unfold setIntVal;
    by destruct (strconv.ParseInt raw 64) as [i [err | ]].
Qed.

Lemma visit_uint_field (X : Externals) (c : Loader) (environ : gmap string string)
    (tf : StructField rtype) (w : uintSize) (vf : value) (pre : list string) (raw : string) :
  CanSet tf = true -> Type_ tf = TUint w ->
  LookupEnv environ (buildEnvKey c tf pre).1 = Some raw ->
  visit X c environ tf vf pre =
    match strconv.ParseUint raw 64 with
    | (_, Some err) =>
        (vf, (false, Some (Wrapf (NumErr err)
                             ("cannot set field " ++ (buildEnvKey c tf pre).1 ++ " value"))))
    | (i, None) => (VUint (toUint (uintBits w) i), (true, None))
    end.
Proof.
  intros Hset Htype Hkey. rewrite visit_loadToField. unfold loadToField.
  rewrite Hset, Htype. destruct (buildEnvKey c tf pre) as [envKey nPrefix].
  cbn [fst negb] in *. rewrite Hkey. unfold setFieldVal. cbn [negb allocIfNil].
  destruct w; cbn; unfold setUintVal;
    by destruct (strconv.ParseUint raw 64) as [i [err | ]].
Qed.

(** C2 does not hold of the code.  [setIntVal] parses with the constant
    bit size 64 and [reflect.Value.SetInt] converts to the type of the
    field without a test, so "300" into an [int8] field is accepted and
    stored as 44.  Text that is no number, and a value outside 64 bits,
    are refused with an error that names the key. *)
Theorem C2_int8_out_of_range_accepted (X : Externals) :
  Load X (New []) {[ "PORT" := "300" ]}
    (TPtr (TStruct [exported "Port" (TInt I8) []])) (addr (VStruct [VInt 0]))
    = (addr (VStruct [VInt 44]), None)
  /\ Load X (New []) {[ "PORT" := "abc" ]}
       (TPtr (TStruct [exported "Port" (TInt I8) []])) (addr (VStruct [VInt 0]))
     = (addr (VStruct [VInt 0]),
        Some (Wrapf (NumErr (strconv.mkNumError "ParseInt" "abc" strconv.ErrSyntax))
                "cannot set field PORT value"))
  /\ Load X (New []) {[ "PORT" := "9223372036854775808" ]}
       (TPtr (TStruct [exported "Port" (TInt I64) []])) (addr (VStruct [VInt 0]))
     = (addr (VStruct [VInt 0]),
        Some (Wrapf (NumErr (strconv.mkNumError "ParseInt" "9223372036854775808"
                               strconv.ErrRange))
                "cannot set field PORT value")).
Proof. repeat split; vm_compute; reflexivity. Qed.

(** ** Sequences *)

(** For a slice of integers the outcome is a function of the parts the
    text splits into. *)
Lemma setFieldVal_ints_by_parts (X : Externals) (c c' : Loader) (w : intSize)
    (vf : value) (s s' : string) :
  strings.Split s (arraySep c) = strings.Split s' (arraySep c') ->
  setFieldVal X c (TSlice (TInt w)) true vf s = setFieldVal X c' (TSlice (TInt w)) true vf s'.
Proof.
  intros Hparts. unfold setFieldVal. cbn -[strings.Split fillSlice].
  unfold setSliceValue. rewrite Hparts.
  destruct (length (strings.Split s' (arraySep c')) =? 0)%nat; [reflexivity | ].
  reflexivity.
Qed.

(** C7.  With the default loader "1,2,3,4" gives [Numbers] the sequence
    1, 2, 3, 4, and so does "1;2;3;4" with a loader made with
    [WithArraySeparator(";")]; in general two texts that split into the
    same parts give an integer slice the same contents. *)
Theorem C7_sequence_by_separator (X : Externals) :
  Load X (New []) {[ "NUMBERS" := "1,2,3,4" ]} (TPtr BasicConfig) (addr (zero BasicConfig))
    = (addr (VStruct [VString ""; VInt 0; VInt 0; VBool false;
                      VSlice (Some [VInt 1; VInt 2; VInt 3; VInt 4]); VMap None]),
       None)
  /\ Load X (New [WithArraySeparator ";"]) {[ "NUMBERS" := "1;2;3;4" ]}
       (TPtr BasicConfig) (addr (zero BasicConfig))
     = (addr (VStruct [VString ""; VInt 0; VInt 0; VBool false;
                       VSlice (Some [VInt 1; VInt 2; VInt 3; VInt 4]); VMap None]),
        None)
  /\ (forall c c' w vf s s',
        strings.Split s (arraySep c) = strings.Split s' (arraySep c') ->
        setFieldVal X c (TSlice (TInt w)) true vf s
          = setFieldVal X c' (TSlice (TInt w)) true vf s').
Proof.
  split; [ | split ].
  - vm_compute. reflexivity.
  - vm_compute. reflexivity.
  - intros. by apply setFieldVal_ints_by_parts.
Qed.

Lemma C7_sequence_by_separator_witness :
  setFieldVal noForeign (New []) (TSlice (TInt I)) true (VSlice None) "1,2,3,4"
    = setFieldVal noForeign (New [WithArraySeparator ";"]) (TSlice (TInt I)) true
        (VSlice None) "1;2;3;4".
Proof.
  apply (proj2 (proj2 (C7_sequence_by_separator noForeign))). reflexivity.
Defined.

(** [strings.Split] of the empty text: one empty part, unless the
    separator is empty as well. *)
Lemma Split_empty (sep : string) : sep <> "" -> strings.Split "" sep = [""].
Proof. destruct sep; [contradiction | reflexivity]. Qed.

Lemma Split_empty_empty : strings.Split "" "" = [].
Proof. reflexivity. Qed.

(** C10, as the claim states it, fails: with the array separator set to
    the empty string the empty text splits into no part at all,
    [setSliceValue] returns on its [len(parts) == 0] test, and the field
    stays nil although its key was found. *)
Lemma C10_no_parts_leaves_slice_nil :
  strings.Split "" (arraySep (New [WithArraySeparator ""])) = []
  /\ Load noForeign (New [WithArraySeparator ""]) {[ "TAGS" := "" ]}
       (TPtr (TStruct [exported "Tags" (TSlice TString) []])) (addr (VStruct [VSlice None]))
     = (addr (VStruct [VSlice None]), None).
Proof. split; vm_compute; reflexivity. Qed.

(** C10, amended to a loader whose array separator is not empty.  An
    assignable slice field whose key is set to the empty text is then
    never left alone: the text splits into the one part [""]; a slice of
    strings becomes [[""]], and for a slice of integers, unsigned integers
    or floats (whose parser refuses the empty text) the walk ends with the
    error of the element, wrapped as a slice error and with the key. *)
Theorem C10_empty_text_slice (X : Externals) (c : Loader) (environ : gmap string string)
    (tf : StructField rtype) (pre : list string) (vf : value) :
  arraySep c <> "" ->
  CanSet tf = true ->
  LookupEnv environ (buildEnvKey c tf pre).1 = Some "" ->
  let failure cause :=
    Wrapf (Wrapf cause "cannot set slice value")
      ("cannot set field " ++ (buildEnvKey c tf pre).1 ++ " value") in
  strings.Split "" (arraySep c) = [""]
  /\ (Type_ tf = TSlice TString ->
        visit X c environ tf vf pre = (VSlice (Some [VString ""]), (true, None)))
  /\ (forall w, Type_ tf = TSlice (TInt w) ->
        visit X c environ tf vf pre =
          (vf, (false, Some (failure
             (NumErr (strconv.mkNumError "ParseInt" "" strconv.ErrSyntax))))))
  /\ (forall w, Type_ tf = TSlice (TUint w) ->
        visit X c environ tf vf pre =
          (vf, (false, Some (failure
             (NumErr (strconv.mkNumError "ParseUint" "" strconv.ErrSyntax))))))
  /\ (forall w e, Type_ tf = TSlice (TFloat w) -> (ParseFloat X "").2 = Some e ->
        visit X c environ tf vf pre = (vf, (false, Some (failure e)))).
Proof.
  intros Hsep Hset Hkey failure. subst failure.
  pose proof (Split_empty _ Hsep) as Hsplit.
  split; [exact Hsplit | ].
  unfold visit, loadToField. rewrite Hset.
  destruct (buildEnvKey c tf pre) as [envKey nPrefix]. cbn [fst negb] in *.
  rewrite Hkey.
  repeat split.
  - intros ->. unfold setFieldVal. cbn -[strings.Split].
    unfold setSliceValue. rewrite Hsplit. reflexivity.
  - intros w ->. unfold setFieldVal. cbn -[strings.Split].
    unfold setSliceValue. rewrite Hsplit. by destruct w.
  - intros w ->. unfold setFieldVal. cbn -[strings.Split].
    unfold setSliceValue. rewrite Hsplit. by destruct w.
  - intros w e -> Hfloat. unfold setFieldVal. cbn -[strings.Split].
    unfold setSliceValue. rewrite Hsplit.
    destruct w; cbn; unfold setFloatVal;
      destruct (ParseFloat X "") as [num [err | ]]; cbn in *; congruence.
Qed.

Lemma C10_empty_text_slice_witness :
  visit noForeign (New []) {[ "TAGS" := "" ]} (exported "Tags" (TSlice TString) [])
    (VSlice None) []
  = (VSlice (Some [VString ""]), (true, None)).
Proof.
  pose proof (C10_empty_text_slice noForeign (New []) {[ "TAGS" := "" ]}
                (exported "Tags" (TSlice TString) []) [] (VSlice None)) as H.
  destruct H as (_ & Hstrings & _).
  - discriminate.
  - reflexivity.
  - reflexivity.
  - apply Hstrings. reflexivity.
Defined.

(** ** The walk from the root *)

Section LoadFacts.
Variable X : Externals.
Variable c : Loader.
Variable environ : gmap string string.

(** [Load] on a pointer to a struct is the loop over its fields with an
    empty segment stack. *)
Lemma Load_struct fs vs :
  Load X c environ (TPtr (TStruct fs)) (addr (VStruct vs)) =
    (addr (VStruct (fieldLoop (visit X c environ) [] fs vs false).1),
     (fieldLoop (visit X c environ) [] fs vs false).2.2).
Proof.
  unfold Load, recursiveLoadToStruct, addr. cbn [Kind reflect.eqb negb].
  rewrite loopOverFields_direct. cbn [getDirectType]. rewrite loopOverFields_struct.
  by destruct (fieldLoop (visit X c environ) [] fs vs false) as [vs' [b e]].
Qed.

(** A field on which [loadToField] fails ends the loop with an error,
    wherever it stands. *)
Lemma fieldLoop_fails step pre fs vs (i : nat) tf vf found :
  fs !! i = Some tf -> vs !! i = Some vf ->
  (exists vf' e, step tf vf pre = (vf', (false, Some e))) ->
  exists vs' e, fieldLoop step pre fs vs found = (vs', (false, Some e)).
Proof.
  intros Hf Hv (vf' & e & E). revert fs vs found Hf Hv.
  induction i as [ | i IH ]; intros [ | tf0 fs ] [ | vf0 vs ] found Hf Hv;
    try discriminate; simpl in Hf, Hv.
  - inversion Hf; inversion Hv; subst. simpl. rewrite E. eauto.
  - simpl. destruct (step tf0 vf0 pre) as [vf1 [ff [err | ]]]; [eauto | ].
    destruct (IH fs vs (if ff then true else found) Hf Hv) as (vs' & e1 & E1).
    rewrite E1. eauto.
Qed.

(** The types of kind struct without [UnmarshalText] are the struct
    types themselves. *)
Lemma plain_struct T :
  Kind T = reflect.Struct -> isTextUnmarshaler T = None -> exists fs, T = TStruct fs.
Proof.
  destruct T as [ | [] | [] | [] | | | [] | | | fs | | ]; try discriminate; eauto.
Qed.

(** On a field that already points to a record [setStructVal] takes the
    address of the pointer; the walker is handed a pointer where it
    expects a struct, [NumField] panics, and the guard of
    [recursiveLoadToStruct] turns the panic into an error. *)
Lemma visit_pointer_in_use tf fs' v0 pre :
  CanSet tf = true -> Type_ tf = TPtr (TStruct fs') ->
  visit X c environ tf (VPtr (Some v0)) pre =
    (VPtr (Some v0),
     (false, Some (StructPanic (TPtr (TPtr (TStruct fs')))
                     (strings.Join (buildEnvKey c tf pre).2 (sep c))
                     (ValueError "reflect.Value.NumField" reflect.Pointer)))).
Proof.
  intros Hset Htype. unfold visit, loadToField. rewrite Hset, Htype.
  destruct (buildEnvKey c tf pre) as [envKey nPrefix].
  destruct (LookupEnv environ envKey) as [envVal | ]; reflexivity.
Qed.

End LoadFacts.

(** C9.  If an assignable field of the record is a pointer to a struct
    without [UnmarshalText] and is not nil when [Load] is called, [Load]
    returns an error whatever the environment holds.  The walk of that
    field itself ends with the recovered panic of [NumField] on a
    pointer to the pointer; an earlier field can only fail earlier. *)
Theorem C9_pointer_in_use_fails (X : Externals) (c : Loader)
    (environ : gmap string string) (fs : list (StructField rtype)) (vs : list value)
    (i : nat) (tf : StructField rtype) (T : rtype) (v0 : value) :
  fs !! i = Some tf ->
  vs !! i = Some (VPtr (Some v0)) ->
  CanSet tf = true ->
  Type_ tf = TPtr T ->
  Kind T = reflect.Struct ->
  isTextUnmarshaler T = None ->
  (exists e, (Load X c environ (TPtr (TStruct fs)) (addr (VStruct vs))).2 = Some e)
  /\ (forall pre,
        visit X c environ tf (VPtr (Some v0)) pre =
          (VPtr (Some v0),
           (false, Some (StructPanic (TPtr (TPtr T))
                           (strings.Join (buildEnvKey c tf pre).2 (sep c))
                           (ValueError "reflect.Value.NumField" reflect.Pointer))))).
Proof.
  intros Hf Hv Hset Htype Hkind Htext.
  destruct (plain_struct T Hkind Htext) as [fs' ->].
  split.
  - rewrite Load_struct. cbn [snd].
    destruct (fieldLoop_fails (visit X c environ) [] fs vs i tf (VPtr (Some v0)) false Hf Hv)
      as (vs' & e & E).
    + rewrite (visit_pointer_in_use X c environ tf fs' v0 [] Hset Htype). eauto.
    + rewrite E. eauto.
  - intros pre. by apply visit_pointer_in_use.
Qed.

Lemma C9_pointer_in_use_fails_witness :
  exists e,
    (Load noForeign (New []) ∅
       (TPtr (TStruct [exported "DB" (TPtr (TStruct [exported "Host" TString []])) []]))
       (addr (VStruct [VPtr (Some (VStruct [VString "db"]))]))).2 = Some e.
Proof.
  apply (C9_pointer_in_use_fails noForeign (New []) ∅
           [exported "DB" (TPtr (TStruct [exported "Host" TString []])) []]
           [VPtr (Some (VStruct [VString "db"]))]
           0 (exported "DB" (TPtr (TStruct [exported "Host" TString []])) [])
           (TStruct [exported "Host" TString []]) (VStruct [VString "db"]));
    reflexivity.
Defined.

(** ** One step of the walk on a zero value *)

Section Descent.
Variable X : Externals.
Variable c : Loader.
Variable environ : gmap string string.

Local Abbreviation visit := (visit X c environ).

(** A type of kind struct is its own direct type, has fields to
    enumerate, and its zero value is the struct of their zero values. *)
Lemma kind_struct_fields t :
  Kind t = reflect.Struct ->
  getDirectType t = t
  /\ exists fs, structFields t = Some fs /\ zero t = VStruct (zeros fs).
Proof.
  induction t as [ | [] | [] | [] | | | [] | e _ | k e _ _ | fs _ | e _ | name u IH ]
    using rtype_induction; try discriminate.
  - intros _. split; [reflexivity | ]. exists fs. split; reflexivity.
  - intros Hk. destruct (IH Hk) as (_ & fs & Hfs & Hz).
    split; [reflexivity | ]. exists fs. split; assumption.
Qed.

Lemma loopOverFields_fields t fs vs pre :
  structFields t = Some fs ->
  loopOverFields X c environ t (VStruct vs) pre =
    (VStruct (fieldLoop visit pre fs vs false).1, Returns (fieldLoop visit pre fs vs false).2).
Proof.
  induction t as [ | | | | | | | e _ | k e _ _ | fs0 _ | e IH | name u IH ]
    using rtype_induction; try discriminate.
  - intros [= ->]. apply loopOverFields_struct.
  - exact IH.
  - exact IH.
Qed.

(** [NumField] on a pointer panics. *)
Lemma loopOverFields_pointer t o pre :
  exists p, loopOverFields X c environ t (VPtr o) pre = (VPtr o, Panics p).
Proof.
  induction t as [ | | | | | | | e _ | k e _ _ | fs0 _ | e IH | name u IH ]
    using rtype_induction; try (eexists; reflexivity); exact IH.
Qed.

(** Where [setFieldVal] takes the text it never answers "not set, no
    error"; that answer is kept for plain structs. *)
Lemma setDirectVal_takes t :
  takesText t = true ->
  forall fval envVal, (setDirectVal X c t fval envVal).2 <> Returns (false, None).
Proof.
  induction t as [ | w | w | w | | | k | e _ | k e _ _ | fs0 _ | e IH | name u _ ]
    using rtype_induction; intros Ht fval envVal; try discriminate.
  - destruct w; cbn; unfold setIntVal; by destruct (strconv.ParseInt envVal 64) as [? [ | ]].
  - destruct w; cbn; unfold setUintVal; by destruct (strconv.ParseUint envVal 64) as [? [ | ]].
  - destruct w; cbn; unfold setFloatVal; by destruct (ParseFloat X envVal) as [? [ | ]].
  - by destruct k.
  - cbn -[setSliceValue]. by destruct (setSliceValue _ _ _ _ _) as [? [ | ]].
  - cbn. destruct fval as [ | | | | | | | | | [target | ]]; try discriminate.
    specialize (IH Ht target envVal).
    destruct (setDirectVal X c e target envVal) as [target' r]. exact IH.
  - cbn. by destruct (UnmarshalText X name fval envVal) as [? [ | ]].
Qed.

(** A type into which the walk descends is of kind struct, or a pointer
    to such a type. *)
Lemma descends_shape t :
  descends t = true ->
  Kind t = reflect.Struct \/ exists e, t = TPtr e /\ descends e = true.
Proof.
  destruct t as [ | [] | [] | [] | | | [] | e | k e | fs | e | name u ];
    try discriminate; unfold descends; cbn [getDirectType Kind]; eauto.
  - intros H. left. by destruct (Kind u).
Qed.

(** The direct type of a field that does not take text is a plain
    struct: the field is one, or it is a pointer. *)
Lemma plain_shape t :
  takesText t = false -> (exists fs, t = TStruct fs) \/ (exists e, t = TPtr e).
Proof. destruct t; try discriminate; eauto. Qed.

Lemma takesText_false_descends t : takesText t = false -> descends t = true.
Proof.
  unfold takesText, descends. by destruct (getDirectType t).
Qed.

(** [setStructVal] on the zero value of a field, when it succeeds: the
    record of the field (fresh, for a nil pointer) was walked from its
    zero value, and the field keeps the outcome as [kept] says. *)
Lemma setStructVal_zero t pre vf' b :
  descends t = true ->
  setStructVal c (loopOverFields X c environ t) t (zero t) pre = (vf', (b, None)) ->
  exists fs vs',
    structFields t = Some fs
    /\ fieldLoop visit pre fs (zeros fs) false = (vs', (b, None))
    /\ vf' = kept t b (VStruct vs').
Proof.
  intros Hd Hs. destruct (descends_shape t Hd) as [Hk | (e & -> & He)].
  - destruct (kind_struct_fields t Hk) as (_ & fs & Hfs & Hz).
    exists fs. rewrite Hz in Hs.
    unfold setStructVal, recursiveLoadToStruct in Hs. rewrite Hk in Hs.
    cbn [reflect.eqb andb Kind negb] in Hs.
    rewrite (loopOverFields_fields t fs _ _ Hfs) in Hs.
    destruct (fieldLoop visit pre fs (zeros fs) false) as [vs' [b' [err | ]]] eqn:E;
      cbn in Hs; [discriminate | ].
    inversion Hs; subst. exists vs'. split; [exact Hfs | split; [reflexivity | ]].
    destruct t; try reflexivity. discriminate.
  - unfold setStructVal, recursiveLoadToStruct in Hs.
    cbn [zero Kind reflect.eqb IsNil andb negb Elem] in Hs.
    destruct (descends_shape e He) as [Hk | (e' & -> & _)].
    + destruct (kind_struct_fields e Hk) as (_ & fs & Hfs & Hz).
      exists fs. rewrite Hz in Hs.
      rewrite (loopOverFields_fields (TPtr e) fs _ _ Hfs) in Hs.
      destruct (fieldLoop visit pre fs (zeros fs) false) as [vs' [b' [err | ]]] eqn:E;
        cbn in Hs; [discriminate | ].
      exists vs'. destruct b'; inversion Hs; subst; (split; [exact Hfs | split; reflexivity]).
    + cbn [zero] in Hs.
      destruct (loopOverFields_pointer (TPtr (TPtr e')) None pre) as [p Hp].
      rewrite Hp in Hs. discriminate.
Qed.

(** A field that does not take text leaves a text alone, and a pointer
    among such fields has been allocated by then. *)
Lemma setFieldVal_plain t envVal v1 r :
  takesText t = false ->
  setFieldVal X c t true (zero t) envVal = (v1, Returns r) ->
  r = (false, None)
  /\ ((exists fs, t = TStruct fs) /\ v1 = zero t \/ (exists e o, t = TPtr e /\ v1 = VPtr (Some o))).
Proof.
  intros Ht H. destruct (plain_shape t Ht) as [[fs ->] | [e ->]].
  - cbn in H. inversion H; subst. split; [reflexivity | left; eauto].
  - unfold setFieldVal in H. cbn [negb allocIfNil zero IsNil] in H.
    cbn [setDirectVal] in H.
    destruct (setDirectVal X c e (zero e) envVal) as [target' r'] eqn:E.
    inversion H; subst. split; [ | right; eauto].
    clear H. revert target' r E. unfold takesText in Ht. cbn [getDirectType] in Ht.
    induction e as [ | | | | | | | e _ | k e _ _ | fs0 _ | e IH | name u _ ]
      using rtype_induction; intros target' r E; try discriminate.
    cbn in E. congruence.
Qed.

(** How the visit of an assignable field can succeed on its zero value:
    its text was taken; or there was no text and nothing to enter; or its
    record was entered and walked from its zero value. *)
Lemma visit_zero_success tf pre vf' b :
  CanSet tf = true ->
  visit tf (zero (Type_ tf)) pre = (vf', (b, None)) ->
  (exists s,
      LookupEnv environ (buildEnvKey c tf pre).1 = Some s
      /\ takesText (Type_ tf) = true
      /\ setFieldVal X c (Type_ tf) true (zero (Type_ tf)) s = (vf', Returns (true, None))
      /\ b = true)
  \/ (LookupEnv environ (buildEnvKey c tf pre).1 = None
      /\ descends (Type_ tf) = false /\ vf' = zero (Type_ tf) /\ b = false)
  \/ (descends (Type_ tf) = true
      /\ (LookupEnv environ (buildEnvKey c tf pre).1 = None \/ takesText (Type_ tf) = false)
      /\ exists fs vs',
           structFields (Type_ tf) = Some fs
           /\ fieldLoop visit (buildEnvKey c tf pre).2 fs (zeros fs) false = (vs', (b, None))
           /\ vf' = kept (Type_ tf) b (VStruct vs')).
Proof.
  intros Hset H. rewrite visit_loadToField in H. unfold loadToField in H. rewrite Hset in H.
  cbn [negb] in H. fold (descends (Type_ tf)) in H.
  destruct (buildEnvKey c tf pre) as [envKey nPrefix]. cbn [fst snd].
  destruct (LookupEnv environ envKey) as [s | ] eqn:Hkey.
  - destruct (setFieldVal X c (Type_ tf) true (zero (Type_ tf)) s)
      as [v1 [[[ | ] [err | ]] | p]] eqn:Hsv; cbv beta iota zeta in H; try discriminate H.
    + left. exists s. inversion H; subst.
      split; [reflexivity | split; [ | split; [exact Hsv | reflexivity]]].
      destruct (takesText (Type_ tf)) eqn:Ht; [reflexivity | ].
      destruct (setFieldVal_plain _ _ _ _ Ht Hsv) as [? _]. discriminate.
    + right. right.
      assert (Ht : takesText (Type_ tf) = false).
      { destruct (takesText (Type_ tf)) eqn:Ht; [ | reflexivity].
        exfalso. unfold setFieldVal in Hsv. cbn [negb] in Hsv.
        eapply (setDirectVal_takes _ Ht). rewrite Hsv. reflexivity. }
      rewrite (takesText_false_descends _ Ht) in H |- *.
      split; [reflexivity | split; [by right | ]].
      destruct (setFieldVal_plain _ _ _ _ Ht Hsv) as [_ [[[fs Hfs] ->] | (e & o & He & ->)]].
      * by apply setStructVal_zero; [apply takesText_false_descends | ].
      * exfalso. rewrite He in H.
        unfold setStructVal, recursiveLoadToStruct in H.
        cbn [Kind reflect.eqb IsNil andb negb] in H.
        destruct (loopOverFields_pointer (TPtr e) (Some o) nPrefix) as [p Hp].
        rewrite Hp in H. discriminate.
  - destruct (descends (Type_ tf)) eqn:Hd.
    + right. right. split; [reflexivity | split; [by left | ]].
      by apply setStructVal_zero.
    + right. left. inversion H; subst. repeat split.
Qed.

End Descent.

(** ** The loop over the fields *)

Section LoopFacts.
Variable step : StructField rtype -> value -> list string -> value * (bool * option error).
Variable pre : list string.

Lemma fieldLoop_cons tf fs vf vs found :
  fieldLoop step pre (tf :: fs) (vf :: vs) found =
    match step tf vf pre with
    | (vf', (_, Some err)) => (vf' :: vs, (false, Some err))
    | (vf', (foundField, None)) =>
        ((vf' :: (fieldLoop step pre fs vs (if foundField then true else found)).1),
         (fieldLoop step pre fs vs (if foundField then true else found)).2)
    end.
Proof.
  simpl. destruct (step tf vf pre) as [vf' [ff [err | ]]]; [reflexivity | ].
  by destruct (fieldLoop step pre fs vs (if ff then true else found)).
Qed.

Lemma fieldLoop_length fs vs found :
  length (fieldLoop step pre fs vs found).1 = length vs.
Proof.
  revert vs found. induction fs as [ | tf fs IH ]; intros [ | vf vs ] found; try reflexivity.
  rewrite fieldLoop_cons. destruct (step tf vf pre) as [vf' [ff [err | ]]]; [reflexivity | ].
  cbn [fst length]. by rewrite IH.
Qed.

(** Once something was found the loop, if it succeeds, says so. *)
Lemma fieldLoop_found fs vs vs' b :
  fieldLoop step pre fs vs true = (vs', (b, None)) -> b = true.
Proof.
  revert vs vs'. induction fs as [ | tf fs IH ]; intros [ | vf vs ] vs' H;
    try (simpl in H; congruence).
  rewrite fieldLoop_cons in H. destruct (step tf vf pre) as [vf' [ff [err | ]]]; [discriminate | ].
  replace (if ff then true else true) with true in H by (by destruct ff).
  destruct (fieldLoop step pre fs vs true) as [vs'' [b' [e | ]]] eqn:E; cbn in H; [discriminate | ].
  inversion H; subst. eapply IH. exact E.
Qed.

(** In a loop that succeeds every field was visited, on the value it had
    at the call, and holds what its visit left. *)
Lemma fieldLoop_success fs vs found vs' b :
  fieldLoop step pre fs vs found = (vs', (b, None)) ->
  forall (i : nat) tf vf, fs !! i = Some tf -> vs !! i = Some vf ->
    (step tf vf pre).2.2 = None /\ vs' !! i = Some (step tf vf pre).1.
Proof.
  revert vs found vs'. induction fs as [ | tf0 fs IH ]; intros [ | vf0 vs ] found vs' H i tf vf Hf Hv;
    try discriminate.
  rewrite fieldLoop_cons in H. destruct (step tf0 vf0 pre) as [vf' [ff [err | ]]] eqn:E0; [discriminate | ].
  destruct (fieldLoop step pre fs vs (if ff then true else found)) as [vs'' [b' [e | ]]] eqn:E;
    cbn in H; [discriminate | ].
  inversion H; subst. destruct i as [ | i ]; simpl in Hf, Hv |- *.
  - inversion Hf; inversion Hv; subst. by rewrite E0.
  - eapply IH; eauto.
Qed.

(** A loop that fails stops at its first failing field: the fields before
    it were visited and keep what their visits left, the failing field
    holds what its own visit left, the fields after it were not touched,
    and the error is the one of the failing field. *)
Lemma fieldLoop_first_failure fs vs found vs' b e :
  fieldLoop step pre fs vs found = (vs', (b, Some e)) ->
  exists (i : nat) tf vf,
    fs !! i = Some tf /\ vs !! i = Some vf
    /\ (step tf vf pre).2.2 = Some e
    /\ vs' !! i = Some (step tf vf pre).1
    /\ (forall (j : nat) tf_j vf_j, (j < i)%nat -> fs !! j = Some tf_j -> vs !! j = Some vf_j ->
          (step tf_j vf_j pre).2.2 = None /\ vs' !! j = Some (step tf_j vf_j pre).1)
    /\ (forall j : nat, (i < j)%nat -> vs' !! j = vs !! j)
    /\ b = false.
Proof.
  intros H. pose proof (fieldLoop_error _ _ _ _ _ _ _ _ H) as ->.
  revert vs found vs' H. induction fs as [ | tf0 fs IH ]; intros [ | vf0 vs ] found vs' H;
    try (simpl in H; congruence).
  rewrite fieldLoop_cons in H. destruct (step tf0 vf0 pre) as [vf' [ff [err | ]]] eqn:E0.
  - inversion H; subst. exists 0%nat, tf0, vf0. rewrite E0. cbn.
    split; [reflexivity | ]. split; [reflexivity | ]. split; [reflexivity | ].
    split; [reflexivity | ]. split; [ | split; [ | reflexivity]].
    + intros j tf_j vf_j Hj. lia.
    + intros [ | j ] Hj; [lia | reflexivity].
  - destruct (fieldLoop step pre fs vs (if ff then true else found)) as [vs'' [b' [e' | ]]] eqn:E;
      cbn in H; [ | discriminate].
    inversion H; subst.
    destruct (IH _ _ _ E) as (i & tf & vf & Hf & Hv & Hstep & Hi & Hbefore & Hafter & _).
    exists (S i), tf, vf.
    split; [exact Hf | ]. split; [exact Hv | ]. split; [exact Hstep | ].
    split; [exact Hi | ]. split; [ | split; [ | reflexivity]].
    + intros [ | j ] tf_j vf_j Hj Hfj Hvj; simpl in Hfj, Hvj.
      * inversion Hfj; inversion Hvj; subst. by rewrite E0.
      * simpl. eapply Hbefore; eauto. lia.
    + intros [ | j ] Hj; [lia | ]. simpl. apply Hafter. lia.
Qed.

End LoopFacts.

(** ** The first failure *)

Section FailureFacts.
Variable X : Externals.
Variable c : Loader.
Variable environ : gmap string string.

Local Abbreviation visit := (visit X c environ).

(** [recursiveLoadToStruct] and [setStructVal] return [false] with an error. *)
Lemma setStructVal_error loop t vf pre vf' b e :
  setStructVal c loop t vf pre = (vf', (b, Some e)) -> b = false.
Proof.
  unfold setStructVal.
  destruct (reflect.eqb (Kind t) reflect.Pointer && IsNil vf);
    destruct (recursiveLoadToStruct c loop _ _ pre) as [newVf' [found [err | ]]];
    congruence.
Qed.

(** [loadToField] returns [false] with an error. *)
Lemma visit_error tf vf pre vf' b e :
  visit tf vf pre = (vf', (b, Some e)) -> b = false.
Proof.
  rewrite !visit_loadToField. unfold loadToField.
  destruct (negb (CanSet tf)); [congruence | ].
  destruct (buildEnvKey c tf pre) as [envKey nPrefix].
  assert (Hdescend : forall v,
    (if isStruct (Kind (getDirectType (Type_ tf)))
     then setStructVal c (loopOverFields X c environ (Type_ tf)) (Type_ tf) v nPrefix
     else (v, (false, None))) = (vf', (b, Some e)) -> b = false).
  { intros v. destruct (isStruct _); [apply setStructVal_error | congruence]. }
  destruct (LookupEnv environ envKey) as [envVal | ]; [ | apply Hdescend].
  destruct (setFieldVal X c (Type_ tf) (CanSet tf) vf envVal) as [v1 [[[ | ] [err | ]] | p]];
    try congruence.
  apply Hdescend.
Qed.

(** A nil pointer whose own key is not set is still nil when the walk
    below it has failed: the record allocated for the walk is dropped. *)
Lemma visit_nil_pointer_failure tf t pre e :
  Type_ tf = TPtr t ->
  LookupEnv environ (buildEnvKey c tf pre).1 = None ->
  (visit tf (VPtr None) pre).2.2 = Some e ->
  (visit tf (VPtr None) pre).1 = VPtr None.
Proof.
  intros Htype Hkey. rewrite !visit_loadToField. unfold loadToField.
  destruct (negb (CanSet tf)); [reflexivity | ].
  destruct (buildEnvKey c tf pre) as [envKey nPrefix]. cbn [fst] in Hkey. rewrite Hkey.
  destruct (isStruct _); [ | reflexivity].
  unfold setStructVal. rewrite Htype. cbn [Kind reflect.eqb IsNil andb].
  destruct (recursiveLoadToStruct c _ _ _ nPrefix) as [newVf' [[ | ] [err | ]]];
    cbn; congruence.
Qed.

End FailureFacts.

(** C8, as the claim states it, fails below a nil pointer.  [Host] is
    assigned in a record that [setStructVal] has allocated but not yet
    stored; when [Port] fails the record is dropped, and the caller finds
    [DB] nil, without the value [Host] was given.  With a well-formed
    [DB_PORT] the same walk stores the record. *)
Lemma C8_assignment_lost_below_nil_pointer :
  Load noForeign (New []) {[ "DB_HOST" := "db"; "DB_PORT" := "x" ]}
    (TPtr (TStruct [exported "DB"
                      (TPtr (TStruct [exported "Host" TString []; exported "Port" (TInt I) []]))
                      []]))
    (addr (VStruct [VPtr None]))
  = (addr (VStruct [VPtr None]),
     Some (Wrapf (NumErr (strconv.mkNumError "ParseInt" "x" strconv.ErrSyntax))
             "cannot set field DB_PORT value"))
  /\ Load noForeign (New []) {[ "DB_HOST" := "db"; "DB_PORT" := "5432" ]}
       (TPtr (TStruct [exported "DB"
                         (TPtr (TStruct [exported "Host" TString []; exported "Port" (TInt I) []]))
                         []]))
       (addr (VStruct [VPtr None]))
     = (addr (VStruct [VPtr (Some (VStruct [VString "db"; VInt 5432]))]), None).
Proof. split; vm_compute; reflexivity. Qed.

(** C8, amended.  When [Load] fails it returns the error of the first
    field whose visit fails.  Every field of the record before that one
    was visited without error and holds what its visit left in it, the
    failing field holds what its own visit left, and the fields after it
    are as they were.  What was assigned below a pointer field that was
    nil is not kept when the walk fails below it: if the key of the
    pointer itself is not set, the pointer is nil afterwards. *)
Theorem C8_first_failure (X : Externals) (c : Loader) (environ : gmap string string)
    (fs : list (StructField rtype)) (vs : list value) (s' : value) (e : error) :
  Load X c environ (TPtr (TStruct fs)) (addr (VStruct vs)) = (s', Some e) ->
  exists (vs' : list value) (i : nat) tf vf,
    s' = addr (VStruct vs')
    /\ fs !! i = Some tf /\ vs !! i = Some vf
    /\ (visit X c environ tf vf []).2 = (false, Some e)
    /\ vs' !! i = Some (visit X c environ tf vf []).1
    /\ (forall (j : nat) tf_j vf_j,
          (j < i)%nat -> fs !! j = Some tf_j -> vs !! j = Some vf_j ->
          (visit X c environ tf_j vf_j []).2.2 = None
          /\ vs' !! j = Some (visit X c environ tf_j vf_j []).1)
    /\ (forall j : nat, (i < j)%nat -> vs' !! j = vs !! j)
    /\ (forall t, Type_ tf = TPtr t -> vf = VPtr None ->
          LookupEnv environ (buildEnvKey c tf []).1 = None ->
          vs' !! i = Some (VPtr None)).
Proof.
  rewrite Load_struct. intros H.
  destruct (fieldLoop (visit X c environ) [] fs vs false) as [vs' [b oe]] eqn:E.
  cbn in H. inversion H; subst.
  destruct (fieldLoop_first_failure _ _ _ _ _ _ _ _ E)
    as (i & tf & vf & Hf & Hv & Hstep & Hi & Hbefore & Hafter & _).
  exists vs', i, tf, vf.
  split; [reflexivity | ]. split; [exact Hf | ]. split; [exact Hv | ].
  split.
  { destruct (visit X c environ tf vf []) as [vf' [b' oe']] eqn:Ev. cbn in Hstep. subst oe'.
    by rewrite (visit_error _ _ _ _ _ _ _ _ _ Ev). }
  split; [exact Hi | ]. split; [exact Hbefore | ]. split; [exact Hafter | ].
  intros t Htype -> Hkey. rewrite Hi. f_equal.
  eapply visit_nil_pointer_failure; eauto.
Qed.

Lemma C8_first_failure_witness :
  exists vs',
    (Load noForeign (New []) {[ "DB_HOST" := "db"; "DB_PORT" := "x" ]}
       (TPtr (TStruct [exported "DB"
                         (TPtr (TStruct [exported "Host" TString [];
                                         exported "Port" (TInt I) []])) []]))
       (addr (VStruct [VPtr None]))).1 = addr (VStruct vs')
    /\ vs' !! 0%nat = Some (VPtr None).
Proof.
  destruct (C8_first_failure noForeign (New []) {[ "DB_HOST" := "db"; "DB_PORT" := "x" ]}
              [exported "DB"
                 (TPtr (TStruct [exported "Host" TString []; exported "Port" (TInt I) []])) []]
              [VPtr None]
              (addr (VStruct [VPtr None]))
              (Wrapf (NumErr (strconv.mkNumError "ParseInt" "x" strconv.ErrSyntax))
                 "cannot set field DB_PORT value"))
    as (vs' & i & tf & vf & Hs & Hf & Hv & _ & _ & _ & _ & Hnil).
  { vm_compute. reflexivity. }
  exists vs'. split; [exact Hs | ].
  destruct i as [ | i ]; [ | discriminate Hf].
  injection Hf as <-. injection Hv as <-.
  apply (Hnil (TStruct [exported "Host" TString []; exported "Port" (TInt I) []]));
    reflexivity.
Defined.

(** ** Below a nil pointer *)

(** Every list of fields can be handled once the member lists of its
    fields have been handled. *)
Lemma fields_induction (Q : list (StructField rtype) -> Prop) :
  (forall fs,
      (forall tf fs', tf ∈ fs -> structFields (Type_ tf) = Some fs' -> Q fs') -> Q fs) ->
  forall fs, Q fs.
Proof.
  intros Hstep fs.
  enough (H : forall t fs', structFields t = Some fs' -> Q fs')
    by exact (H (TStruct fs) fs eq_refl).
  induction t as [ | | | | | | | e _ | k e _ _ | fs0 IH | e IH | name u IH ]
    using rtype_induction; intros fs' Hfs; try discriminate.
  - injection Hfs as <-. apply Hstep. intros tf fs' Hin Hfs'.
    rewrite Forall_forall in IH. exact (IH tf Hin fs' Hfs').
  - exact (IH fs' Hfs).
  - exact (IH fs' Hfs).
Qed.

Section Paths.
Variable c : Loader.
Variable environ : gmap string string.

Lemma keyAt_tail tf fs pre (i : nat) q :
  keyAt c (tf :: fs) pre (S i :: q) = keyAt c fs pre (i :: q).
Proof. reflexivity. Qed.

Lemma keyAt_head tf fs pre :
  CanSet tf = true -> keyAt c (tf :: fs) pre [0%nat] = Some (buildEnvKey c tf pre).1.
Proof. unfold keyAt. cbn. by intros ->. Qed.

Lemma keyAt_below tf fs fs' pre (j : nat) q :
  CanSet tf = true -> descends (Type_ tf) = true -> structFields (Type_ tf) = Some fs' ->
  keyAt c (tf :: fs) pre (0%nat :: j :: q) = keyAt c fs' (buildEnvKey c tf pre).2 (j :: q).
Proof. unfold keyAt. cbn -[descends]. by intros -> -> ->. Qed.

Lemma silent_tail tf fs pre : silent environ c (tf :: fs) pre -> silent environ c fs pre.
Proof.
  intros H [ | i q ] k Hk; [discriminate | ].
  apply (H (S i :: q)). by rewrite keyAt_tail.
Qed.

Lemma silent_head tf fs pre :
  silent environ c (tf :: fs) pre -> CanSet tf = true ->
  LookupEnv environ (buildEnvKey c tf pre).1 = None.
Proof. intros H Hset. apply (H [0%nat]). by apply keyAt_head. Qed.

Lemma silent_below tf fs fs' pre :
  silent environ c (tf :: fs) pre ->
  CanSet tf = true -> descends (Type_ tf) = true -> structFields (Type_ tf) = Some fs' ->
  silent environ c fs' (buildEnvKey c tf pre).2.
Proof.
  intros H Hset Hd Hfs [ | j q ] k Hk; [discriminate | ].
  apply (H (0%nat :: j :: q)). by rewrite (keyAt_below _ _ fs').
Qed.

Lemma only_tail tf fs pre (i : nat) q :
  only environ c (tf :: fs) pre (S i :: q) -> only environ c fs pre (i :: q).
Proof.
  intros H [ | j q' ] k Hne Hk; [discriminate | ].
  apply (H (S j :: q')); [congruence | by rewrite keyAt_tail].
Qed.

Lemma only_passed tf fs pre (i : nat) q :
  only environ c (tf :: fs) pre (S i :: q) -> silent environ c [tf] pre.
Proof.
  intros H [ | [ | j ] q' ] k Hk; try discriminate.
  apply (H (0%nat :: q')); [discriminate | exact Hk].
Qed.

Lemma only_rest tf fs pre q :
  only environ c (tf :: fs) pre (0%nat :: q) -> silent environ c fs pre.
Proof.
  intros H [ | j q' ] k Hk; [discriminate | ].
  apply (H (S j :: q')); [discriminate | by rewrite keyAt_tail].
Qed.

Lemma only_head tf fs pre (j : nat) q :
  only environ c (tf :: fs) pre (0%nat :: j :: q) -> CanSet tf = true ->
  LookupEnv environ (buildEnvKey c tf pre).1 = None.
Proof. intros H Hset. apply (H [0%nat]); [discriminate | by apply keyAt_head]. Qed.

Lemma only_below tf fs fs' pre (j : nat) q :
  only environ c (tf :: fs) pre (0%nat :: j :: q) ->
  CanSet tf = true -> descends (Type_ tf) = true -> structFields (Type_ tf) = Some fs' ->
  only environ c fs' (buildEnvKey c tf pre).2 (j :: q).
Proof.
  intros H Hset Hd Hfs [ | j' q' ] k Hne Hk; [discriminate | ].
  apply (H (0%nat :: j' :: q')); [congruence | by rewrite (keyAt_below _ _ fs')].
Qed.

End Paths.

Section BelowNil.
Variable X : Externals.
Variable c : Loader.
Variable environ : gmap string string.

Local Abbreviation visit := (visit X c environ).

Lemma visit_unsettable tf vf pre :
  CanSet tf = false -> visit tf vf pre = (vf, (false, None)).
Proof. intros H. rewrite !visit_loadToField. unfold loadToField. by rewrite H. Qed.

Lemma kept_zero t fs :
  descends t = true -> structFields t = Some fs ->
  kept t false (VStruct (zeros fs)) = zero t.
Proof.
  intros Hd Hfs. destruct (descends_shape t Hd) as [Hk | (e & -> & _)]; [ | reflexivity].
  destruct (kind_struct_fields t Hk) as (_ & fs' & Hfs' & ->).
  rewrite Hfs in Hfs'. injection Hfs' as <-.
  destruct t; try reflexivity. discriminate.
Qed.

Lemma kept_held t v : kept t true v = held t v.
Proof. by destruct t. Qed.

Lemma silent_single tf fs pre :
  silent environ c (tf :: fs) pre -> silent environ c [tf] pre.
Proof.
  intros H [ | [ | j ] q ] k Hk; try discriminate.
  apply (H (0%nat :: q)). exact Hk.
Qed.

(** The visit of a field below which no key is set changes nothing and
    finds nothing, if it succeeds and the same holds of the members. *)
Lemma visit_quiet_step tf pre vf' ff :
  (forall fs', structFields (Type_ tf) = Some fs' ->
     forall pre found vs' b,
       silent environ c fs' pre ->
       fieldLoop visit pre fs' (zeros fs') found = (vs', (b, None)) ->
       vs' = zeros fs' /\ b = found) ->
  silent environ c [tf] pre ->
  visit tf (zero (Type_ tf)) pre = (vf', (ff, None)) ->
  vf' = zero (Type_ tf) /\ ff = false.
Proof.
  intros IH Hsilent Hv. destruct (CanSet tf) eqn:Hset.
  - destruct (visit_zero_success X c environ tf pre vf' ff Hset Hv)
      as [(s & Hkey & _) | [(_ & _ & -> & ->) | (Hd & _ & fs' & vs' & Hfs & Hloop & ->)]].
    + rewrite (silent_head _ _ _ _ _ Hsilent Hset) in Hkey. discriminate.
    + split; reflexivity.
    + destruct (IH fs' Hfs _ _ _ _ (silent_below _ _ _ _ _ _ Hsilent Hset Hd Hfs) Hloop)
        as [-> ->].
      split; [by apply kept_zero | reflexivity].
  - rewrite (visit_unsettable _ _ _ Hset) in Hv. by inversion Hv.
Qed.

(** A walk below which no key is set changes nothing and finds nothing,
    if it succeeds. *)
Lemma quiet_fields fs :
  forall pre found vs' b,
    silent environ c fs pre ->
    fieldLoop visit pre fs (zeros fs) found = (vs', (b, None)) ->
    vs' = zeros fs /\ b = found.
Proof.
  induction fs as [fs IH] using fields_induction.
  assert (Hsuffix : forall fs0, (forall tf, tf ∈ fs0 -> tf ∈ fs) ->
    forall pre found vs' b,
      silent environ c fs0 pre ->
      fieldLoop visit pre fs0 (zeros fs0) found = (vs', (b, None)) ->
      vs' = zeros fs0 /\ b = found).
  { induction fs0 as [ | tf fs0 IH0 ]; intros Hin pre found vs' b Hsilent Hloop.
    - simpl in Hloop. by inversion Hloop.
    - change (zeros (tf :: fs0)) with (zero (Type_ tf) :: zeros fs0) in Hloop |- *.
      rewrite fieldLoop_cons in Hloop.
      destruct (visit tf (zero (Type_ tf)) pre) as [vf' [ff [err | ]]] eqn:Ev; [discriminate | ].
      destruct (visit_quiet_step tf pre vf' ff) as [-> ->].
      + intros fs' Hfs. apply (IH tf fs'); [apply Hin; left | exact Hfs].
      + by eapply silent_single.
      + exact Ev.
      + destruct (fieldLoop visit pre fs0 (zeros fs0) found) as [vs'' [b' [e | ]]] eqn:E;
          cbn in Hloop; [discriminate | ].
        inversion Hloop; subst.
        destruct (IH0 (fun tf' H => Hin tf' (list_elem_of_further _ _ _ H)) _ _ _ _
                    (silent_tail _ _ _ _ _ Hsilent) E) as [-> ->].
        split; reflexivity. }
  apply Hsuffix. auto.
Qed.

Lemma visit_quiet tf pre vf' ff :
  silent environ c [tf] pre ->
  visit tf (zero (Type_ tf)) pre = (vf', (ff, None)) ->
  vf' = zero (Type_ tf) /\ ff = false.
Proof. apply visit_quiet_step. intros fs' _. apply quiet_fields. Qed.

End BelowNil.

Section Planting.
Variable X : Externals.
Variable c : Loader.
Variable environ : gmap string string.

Local Abbreviation visit := (visit X c environ).

Lemma reach_tail tf fs pre (i : nat) q :
  reach c (tf :: fs) pre (S i :: q) = reach c fs pre (i :: q).
Proof. reflexivity. Qed.

(** What it takes to reach a field through the first field of a record. *)
Lemma reach_head tf fs pre q leaf pre' :
  reach c (tf :: fs) pre (0%nat :: q) = Some (leaf, pre') ->
  CanSet tf = true
  /\ (q = [] /\ leaf = tf /\ pre' = pre
      \/ exists (j : nat) q' fs',
           q = j :: q' /\ descends (Type_ tf) = true
           /\ structFields (Type_ tf) = Some fs'
           /\ reach c fs' (buildEnvKey c tf pre).2 (j :: q') = Some (leaf, pre')).
Proof.
  cbn -[descends]. destruct (CanSet tf); [ | discriminate]. cbn -[descends].
  intros H. split; [reflexivity | ].
  destruct q as [ | j q' ].
  - left. by inversion H.
  - right. destruct (descends (Type_ tf)); [ | discriminate].
    destruct (structFields (Type_ tf)) as [fs' | ]; [ | discriminate].
    exists j, q', fs'. repeat split. exact H.
Qed.

Lemma plantFields_tail tf fs (i : nat) q x :
  plantFields (tf :: fs) (S i :: q) x = zero (Type_ tf) :: plantFields fs (i :: q) x.
Proof. cbn. by destruct (fs !! i). Qed.

(** A walk that succeeds has found something if the key of a field it
    can reach and that takes text is set. *)
Lemma found_fields fs :
  forall pre found vs' b p leaf pre' s,
    fieldLoop visit pre fs (zeros fs) found = (vs', (b, None)) ->
    reach c fs pre p = Some (leaf, pre') ->
    takesText (Type_ leaf) = true ->
    LookupEnv environ (buildEnvKey c leaf pre').1 = Some s ->
    b = true.
Proof.
  induction fs as [fs IH] using fields_induction.
  assert (Hsuffix : forall fs0, (forall tf, tf ∈ fs0 -> tf ∈ fs) ->
    forall pre found vs' b p leaf pre' s,
      fieldLoop visit pre fs0 (zeros fs0) found = (vs', (b, None)) ->
      reach c fs0 pre p = Some (leaf, pre') ->
      takesText (Type_ leaf) = true ->
      LookupEnv environ (buildEnvKey c leaf pre').1 = Some s ->
      b = true).
  { induction fs0 as [ | tf fs0 IH0 ];
      intros Hin pre found vs' b [ | i q ] leaf pre' s Hloop Hreach Htext Hkey;
      try discriminate.
    change (zeros (tf :: fs0)) with (zero (Type_ tf) :: zeros fs0) in Hloop.
    rewrite fieldLoop_cons in Hloop.
    destruct (visit tf (zero (Type_ tf)) pre) as [vf' [ff [err | ]]] eqn:Ev; [discriminate | ].
    destruct (fieldLoop visit pre fs0 (zeros fs0) (if ff then true else found))
      as [vs'' [b' [e | ]]] eqn:E; cbn in Hloop; [discriminate | ].
    inversion Hloop; subst.
    destruct i as [ | i ].
      + enough (ff = true) as -> by (eapply fieldLoop_found; exact E).
        destruct (reach_head _ _ _ _ _ _ Hreach)
          as (Hset & [(-> & -> & ->) | (j & q' & fs' & -> & Hd & Hfs & Hreach')]).
        * destruct (visit_zero_success X c environ tf pre vf' ff Hset Ev)
            as [(_ & _ & _ & _ & ->) | [(Hnone & _) | (_ & [Hnone | Hplain] & _)]];
            [reflexivity | congruence | congruence | congruence].
        * destruct (visit_zero_success X c environ tf pre vf' ff Hset Ev)
            as [(_ & _ & _ & _ & ->) | [(_ & Hnd & _) | (_ & _ & fs0' & vs0 & Hfs0 & Hloop0 & _)]];
            [reflexivity | congruence | ].
          rewrite Hfs in Hfs0. injection Hfs0 as <-.
          eapply (IH tf fs'); [apply Hin; left | exact Hfs | exact Hloop0 | exact Hreach' | exact Htext | exact Hkey].
      + rewrite reach_tail in Hreach.
        eapply (IH0 (fun tf' H => Hin tf' (list_elem_of_further _ _ _ H))); eauto. }
  apply Hsuffix. auto.
Qed.

(** If, of all the keys a walk would look up, only the key of one field
    that takes text is set, a walk that succeeds leaves the zero record
    with the coerced text planted at that field. *)
Lemma plant_fields fs :
  forall pre found vs' b p leaf pre' s,
    fieldLoop visit pre fs (zeros fs) found = (vs', (b, None)) ->
    reach c fs pre p = Some (leaf, pre') ->
    takesText (Type_ leaf) = true ->
    LookupEnv environ (buildEnvKey c leaf pre').1 = Some s ->
    only environ c fs pre p ->
    exists x,
      setFieldVal X c (Type_ leaf) true (zero (Type_ leaf)) s = (x, Returns (true, None))
      /\ vs' = plantFields fs p x /\ b = true.
Proof.
  induction fs as [fs IH] using fields_induction.
  assert (Hsuffix : forall fs0, (forall tf, tf ∈ fs0 -> tf ∈ fs) ->
    forall pre found vs' b p leaf pre' s,
      fieldLoop visit pre fs0 (zeros fs0) found = (vs', (b, None)) ->
      reach c fs0 pre p = Some (leaf, pre') ->
      takesText (Type_ leaf) = true ->
      LookupEnv environ (buildEnvKey c leaf pre').1 = Some s ->
      only environ c fs0 pre p ->
      exists x,
        setFieldVal X c (Type_ leaf) true (zero (Type_ leaf)) s = (x, Returns (true, None))
        /\ vs' = plantFields fs0 p x /\ b = true).
  { induction fs0 as [ | tf fs0 IH0 ];
      intros Hin pre found vs' b [ | i q ] leaf pre' s Hloop Hreach Htext Hkey Honly;
      try discriminate.
    change (zeros (tf :: fs0)) with (zero (Type_ tf) :: zeros fs0) in Hloop.
    rewrite fieldLoop_cons in Hloop.
    destruct (visit tf (zero (Type_ tf)) pre) as [vf' [ff [err | ]]] eqn:Ev; [discriminate | ].
    destruct (fieldLoop visit pre fs0 (zeros fs0) (if ff then true else found))
      as [vs'' [b' [e | ]]] eqn:E; cbn in Hloop; [discriminate | ].
    inversion Hloop; subst.
    destruct i as [ | i ].
    - destruct (quiet_fields X c environ fs0 _ _ _ _ (only_rest _ _ _ _ _ _ Honly) E)
        as [-> ->].
      destruct (reach_head _ _ _ _ _ _ Hreach)
        as (Hset & [(-> & -> & ->) | (j & q' & fs' & -> & Hd & Hfs & Hreach')]).
      + destruct (visit_zero_success X c environ tf pre vf' ff Hset Ev)
          as [(s0 & Hkey0 & _ & Hsv & ->) | [(Hnone & _) | (_ & [Hnone | Hplain] & _)]];
          [ | congruence | congruence | congruence].
        rewrite Hkey in Hkey0. injection Hkey0 as <-.
        exists vf'. split; [exact Hsv | split; reflexivity].
      + pose proof (only_head _ _ _ _ _ _ _ Honly Hset) as Hnone.
        destruct (visit_zero_success X c environ tf pre vf' ff Hset Ev)
          as [(s0 & Hkey0 & _) | [(_ & Hnd & _) | (_ & _ & fs0' & vs0 & Hfs0 & Hloop0 & ->)]];
          [congruence | congruence | ].
        rewrite Hfs in Hfs0. injection Hfs0 as <-.
        destruct (IH tf fs' (Hin tf (list_elem_of_here _ _)) Hfs _ _ _ _ _ _ _ _
                    Hloop0 Hreach' Htext Hkey
                    (only_below _ _ _ _ _ _ _ _ Honly Hset Hd Hfs))
          as (x & Hsv & -> & ->).
        exists x. split; [exact Hsv | split; [ | reflexivity]].
        cbn. rewrite Hfs. by rewrite kept_held.
    - destruct (visit_quiet X c environ tf pre vf' ff (only_passed _ _ _ _ _ _ _ Honly) Ev)
        as [-> ->].
      rewrite reach_tail in Hreach.
      destruct (IH0 (fun tf' H => Hin tf' (list_elem_of_further _ _ _ H)) _ _ _ _ _ _ _ _
                  E Hreach Htext Hkey (only_tail _ _ _ _ _ _ _ Honly))
        as (x & Hsv & -> & ->).
      exists x. split; [exact Hsv | split; [ | reflexivity]].
      by rewrite plantFields_tail. }
  apply Hsuffix. auto.
Qed.

End Planting.

(** C4.  Take a walk that succeeds ([Load] is the walk of the root
    record with no segments) over a record in which an assignable field
    of type pointer to struct is nil.  If none of the keys the walk looks
    up below that field is set, the field is nil afterwards.  If the key
    of a field below it that takes text is set, the pointer is not nil
    afterwards and points to a record; and if no other key below it is
    set, that record is the zero record except that the field in question
    holds the value its text was coerced to. *)
Theorem C4_nil_pointer_to_record (X : Externals) (c : Loader)
    (environ : gmap string string)
    (fs0 : list (StructField rtype)) (vs0 vs1 : list value) (pre : list string)
    (found0 b0 : bool) (i : nat) (tf : StructField rtype) (fs : list (StructField rtype)) :
  fieldLoop (visit X c environ) pre fs0 vs0 found0 = (vs1, (b0, None)) ->
  fs0 !! i = Some tf ->
  vs0 !! i = Some (VPtr None) ->
  CanSet tf = true ->
  Type_ tf = TPtr (TStruct fs) ->
  (silent environ c fs (buildEnvKey c tf pre).2 -> vs1 !! i = Some (VPtr None))
  /\ (forall p leaf pre' s,
        reach c fs (buildEnvKey c tf pre).2 p = Some (leaf, pre') ->
        takesText (Type_ leaf) = true ->
        LookupEnv environ (buildEnvKey c leaf pre').1 = Some s ->
        (exists record, vs1 !! i = Some (VPtr (Some (VStruct record))))
        /\ (only environ c fs (buildEnvKey c tf pre).2 p ->
            exists x,
              setFieldVal X c (Type_ leaf) true (zero (Type_ leaf)) s
                = (x, Returns (true, None))
              /\ vs1 !! i = Some (VPtr (Some (VStruct (plantFields fs p x)))))).
Proof.
  intros Hloop Hf Hv Hset Htype.
  destruct (fieldLoop_success _ _ _ _ _ _ _ Hloop i tf (VPtr None) Hf Hv) as [Hok ->].
  destruct (visit X c environ tf (VPtr None) pre) as [vf' [b oe]] eqn:Ev.
  cbn in Hok. subst oe. cbn [fst].
  assert (Hzero : zero (Type_ tf) = VPtr None) by (by rewrite Htype).
  rewrite <- Hzero in Ev.
  destruct (visit_zero_success X c environ tf pre vf' b Hset Ev)
    as [(_ & _ & Htext & _) | [(_ & Hnd & _) | (_ & _ & fs' & vs' & Hfs & Hwalk & ->)]].
  - rewrite Htype in Htext. discriminate.
  - rewrite Htype in Hnd. discriminate.
  - rewrite Htype in Hfs |- *. injection Hfs as <-. split.
    + intros Hsilent.
      by destruct (quiet_fields X c environ fs _ _ _ _ Hsilent Hwalk) as [-> ->].
    + intros p leaf pre' s Hreach Htext Hkey. split.
      * rewrite (found_fields X c environ fs _ _ _ _ _ _ _ _ Hwalk Hreach Htext Hkey).
        by exists vs'.
      * intros Honly.
        destruct (plant_fields X c environ fs _ _ _ _ _ _ _ _ Hwalk Hreach Htext Hkey Honly)
          as (x & Hsv & -> & ->).
        by exists x.
Qed.

Lemma C4_nil_pointer_to_record_witness :
  exists x,
    setFieldVal noForeign (New []) TString true (VString "") "db" = (x, Returns (true, None))
    /\ (fieldLoop (visit noForeign (New []) {[ "DB_HOST" := "db" ]}) []
          [exported "DB"
             (TPtr (TStruct [exported "Host" TString []; exported "Port" (TInt I) []])) []]
          [VPtr None] false).1 !! 0%nat
        = Some (VPtr (Some (VStruct
                  (plantFields [exported "Host" TString []; exported "Port" (TInt I) []]
                     [0%nat] x)))).
Proof.
  destruct (C4_nil_pointer_to_record noForeign (New []) {[ "DB_HOST" := "db" ]}
              [exported "DB"
                 (TPtr (TStruct [exported "Host" TString []; exported "Port" (TInt I) []])) []]
              [VPtr None]
              [VPtr (Some (VStruct [VString "db"; VInt 0]))]
              [] false true 0
              (exported "DB"
                 (TPtr (TStruct [exported "Host" TString []; exported "Port" (TInt I) []])) [])
              [exported "Host" TString []; exported "Port" (TInt I) []])
    as [_ Hleaf]; try reflexivity.
  destruct (Hleaf [0%nat] (exported "Host" TString []) ["DB"] "db") as [_ Hplant];
    try reflexivity.
  apply Hplant.
  intros [ | [ | [ | n ] ] [ | j q ] ] k Hne Hk; try discriminate; try congruence.
  injection Hk as <-. reflexivity.
Defined.

(** ** Nothing set, one pointer at most *)

Section Shallow.
Variable X : Externals.
Variable c : Loader.
Variable environ : gmap string string.

Local Abbreviation visit := (visit X c environ).

Lemma shallow_tail tf fs pre : shallow c (tf :: fs) pre -> shallow c fs pre.
Proof.
  intros H [ | i q ] tf' pre' Hreach; [discriminate | ].
  apply (H (S i :: q) tf' pre'). by rewrite reach_tail.
Qed.

Lemma shallow_head tf fs pre :
  shallow c (tf :: fs) pre -> CanSet tf = true -> descends (Type_ tf) = true ->
  Kind (Type_ tf) = reflect.Struct \/ exists e, Type_ tf = TPtr e /\ Kind e = reflect.Struct.
Proof.
  intros H Hset. apply (H [0%nat] tf pre). cbn. by rewrite Hset.
Qed.

Lemma shallow_below tf fs fs' pre :
  shallow c (tf :: fs) pre ->
  CanSet tf = true -> descends (Type_ tf) = true -> structFields (Type_ tf) = Some fs' ->
  shallow c fs' (buildEnvKey c tf pre).2.
Proof.
  intros H Hset Hd Hfs [ | j q ] tf' pre' Hreach; [discriminate | ].
  apply (H (0%nat :: j :: q) tf' pre'). cbn -[descends]. rewrite Hset, Hd, Hfs. exact Hreach.
Qed.

(** [setStructVal] on the zero value of a record held by value or behind
    one pointer, when the walk of the record finds nothing. *)
Lemma setStructVal_zero_quiet t fs pre :
  Kind t = reflect.Struct \/ (exists e, t = TPtr e /\ Kind e = reflect.Struct) ->
  structFields t = Some fs ->
  fieldLoop visit pre fs (zeros fs) false = (zeros fs, (false, None)) ->
  setStructVal c (loopOverFields X c environ t) t (zero t) pre = (zero t, (false, None)).
Proof.
  intros [Hk | (e & -> & Hk)] Hfs Hloop.
  - destruct (kind_struct_fields t Hk) as (_ & fs' & Hfs' & Hz).
    rewrite Hfs in Hfs'. injection Hfs' as <-. rewrite Hz.
    unfold setStructVal, recursiveLoadToStruct. rewrite Hk.
    cbn [reflect.eqb andb Kind negb].
    rewrite (loopOverFields_fields X c environ t fs _ _ Hfs), Hloop. reflexivity.
  - destruct (kind_struct_fields e Hk) as (_ & fs' & Hfs' & Hz).
    cbn [structFields] in Hfs. rewrite Hfs in Hfs'. injection Hfs' as <-.
    unfold setStructVal, recursiveLoadToStruct.
    cbn [zero Kind reflect.eqb IsNil andb negb Elem]. rewrite Hz.
    rewrite (loopOverFields_fields X c environ (TPtr e) fs _ _ Hfs), Hloop. reflexivity.
Qed.

(** With no key set, the walk of a zero record without pointers to
    pointers to records succeeds, changes nothing and finds nothing. *)
Lemma quiet_walk fs :
  forall pre found,
    shallow c fs pre -> silent environ c fs pre ->
    fieldLoop visit pre fs (zeros fs) found = (zeros fs, (found, None)).
Proof.
  induction fs as [fs IH] using fields_induction.
  assert (Hsuffix : forall fs0, (forall tf, tf ∈ fs0 -> tf ∈ fs) ->
    forall pre found,
      shallow c fs0 pre -> silent environ c fs0 pre ->
      fieldLoop visit pre fs0 (zeros fs0) found = (zeros fs0, (found, None))).
  { induction fs0 as [ | tf fs0 IH0 ]; intros Hin pre found Hshallow Hsilent; [reflexivity | ].
    change (zeros (tf :: fs0)) with (zero (Type_ tf) :: zeros fs0).
    rewrite fieldLoop_cons.
    assert (Hvisit : visit tf (zero (Type_ tf)) pre = (zero (Type_ tf), (false, None))).
    { destruct (CanSet tf) eqn:Hset; [ | by apply visit_unsettable].
      rewrite visit_loadToField. unfold loadToField. rewrite Hset. cbn [negb].
      pose proof (silent_head _ _ _ _ _ Hsilent Hset) as Hkey.
      pose proof (fun fs' => shallow_below tf fs0 fs' pre Hshallow Hset) as Hbelow.
      pose proof (fun fs' => silent_below c environ tf fs0 fs' pre Hsilent Hset) as Hquiet.
      destruct (buildEnvKey c tf pre) as [envKey nPrefix]. cbn [fst snd] in *.
      rewrite Hkey. fold (descends (Type_ tf)).
      destruct (descends (Type_ tf)) eqn:Hd; [ | reflexivity].
      pose proof (shallow_head _ _ _ Hshallow Hset Hd) as Hshape.
      assert (exists fs', structFields (Type_ tf) = Some fs') as [fs' Hfs].
      { destruct Hshape as [Hk | (e & He & Hk)].
        - destruct (kind_struct_fields _ Hk) as (_ & fs' & Hfs' & _). eauto.
        - destruct (kind_struct_fields _ Hk) as (_ & fs' & Hfs' & _).
          rewrite He. eauto. }
      apply (setStructVal_zero_quiet _ fs'); [exact Hshape | exact Hfs | ].
      apply (IH tf fs'); [apply Hin; left | exact Hfs | by apply Hbelow | by apply Hquiet]. }
    rewrite Hvisit.
    rewrite (IH0 (fun tf' H => Hin tf' (list_elem_of_further _ _ _ H)) pre found
               (shallow_tail _ _ _ Hshallow) (silent_tail _ _ _ _ _ Hsilent)).
    reflexivity. }
  apply Hsuffix. auto.
Qed.

(** [Load] of a zero record without pointers to pointers to records,
    with none of its keys set: no error, nothing changed. *)
Lemma Load_nothing_set fs :
  shallow c fs [] -> silent environ c fs [] ->
  Load X c environ (TPtr (TStruct fs)) (addr (zero (TStruct fs)))
    = (addr (zero (TStruct fs)), None)
  /\ (recursiveLoadToStruct c (loopOverFields X c environ (TPtr (TStruct fs)))
        (TPtr (TStruct fs)) (addr (zero (TStruct fs))) []).2 = (false, None).
Proof.
  intros Hshallow Hsilent. split.
  - change (zero (TStruct fs)) with (VStruct (zeros fs)).
    rewrite Load_struct. by rewrite (quiet_walk fs [] false Hshallow Hsilent).
  - unfold recursiveLoadToStruct, addr. cbn [Kind reflect.eqb negb].
    change (zero (TStruct fs)) with (VStruct (zeros fs)).
    rewrite (loopOverFields_fields X c environ (TPtr (TStruct fs)) fs _ _ eq_refl).
    by rewrite (quiet_walk fs [] false Hshallow Hsilent).
Qed.

End Shallow.

(** C5 does not hold of the code for every record.  [getDirectType] sees
    the struct behind any number of pointers, but [setStructVal] allocates
    one level only: for a field of type [**struct] the walker receives a
    nil pointer where it expects a struct, and the zero record is refused
    although the environment is empty. *)
Theorem C5_pointer_to_pointer_fails (X : Externals) :
  Load X (New []) ∅
    (TPtr (TStruct [exported "P" (TPtr (TPtr (TStruct [exported "Host" TString []]))) []]))
    (addr (zero (TStruct [exported "P" (TPtr (TPtr (TStruct [exported "Host" TString []]))) []])))
  = (addr (VStruct [VPtr None]),
     Some (StructPanic (TPtr (TPtr (TStruct [exported "Host" TString []]))) "P"
             (ValueError "reflect.Value.NumField" reflect.Pointer))).
Proof. vm_compute. reflexivity. Qed.

(** ** Splitting and joining *)

Lemma HasPrefix_split s sub :
  strings.HasPrefix s sub = true -> s = sub ++ strings.skip (String.length sub) s.
Proof.
  revert s. induction sub as [ | a sub IH ]; intros [ | b s ] H; simpl in *;
    try reflexivity; try discriminate.
  apply andb_prop in H as [Hab H]. apply Ascii.eqb_eq in Hab as ->.
  change (String b s = String b (sub ++ strings.skip (String.length sub) s)).
  f_equal. by apply IH.
Qed.

(** The text around an occurrence. *)
Lemma Index_split s sub (i : nat) :
  strings.Index s sub = Some i ->
  s = String.substring 0 i s ++ sub ++ strings.skip (i + String.length sub) s.
Proof.
  revert i. induction s as [ | b s IH ]; intros i; cbn [strings.Index].
  - destruct (strings.HasPrefix "" sub) eqn:E; [ | discriminate].
    intros [= <-]. by apply HasPrefix_split in E.
  - destruct (strings.HasPrefix (String b s) sub) eqn:E.
    + intros [= <-]. by apply HasPrefix_split in E.
    + destruct (strings.Index s sub) as [j | ]; [ | discriminate].
      intros [= <-].
      change (String b s = String b (String.substring 0 j s ++ sub
                                       ++ strings.skip (j + String.length sub) s)).
      f_equal. by apply IH.
Qed.

Lemma HasPrefix_substring s sub (n : nat) :
  strings.HasPrefix (String.substring 0 n s) sub = true -> strings.HasPrefix s sub = true.
Proof.
  revert s n. induction sub as [ | a sub IH ]; intros s n H; [by destruct s | ].
  destruct s as [ | b s ]; [by destruct n | ].
  destruct n as [ | n ]; [discriminate | ].
  cbn in H |- *. apply andb_prop in H as [-> H]. by rewrite (IH s n H).
Qed.

(** Before its first occurrence the separator does not occur. *)
Lemma Index_first s sub (i : nat) :
  sub <> "" -> strings.Index s sub = Some i ->
  strings.Index (String.substring 0 i s) sub = None.
Proof.
  intros Hsub. revert i. induction s as [ | b s IH ]; intros i; cbn [strings.Index].
  - destruct (strings.HasPrefix "" sub) eqn:E; [ | discriminate].
    intros [= <-]. by destruct sub.
  - destruct (strings.HasPrefix (String b s) sub) eqn:E.
    + intros [= <-]. by destruct sub.
    + destruct (strings.Index s sub) as [j | ] eqn:Ej; [ | discriminate].
      intros [= <-]. cbn [String.substring strings.Index].
      destruct (strings.HasPrefix (String b (String.substring 0 j s)) sub) eqn:E'.
      * apply (HasPrefix_substring (String b s) sub (S j)) in E'. congruence.
      * by rewrite (IH j eq_refl).
Qed.

Lemma countLoop_le (f : nat) s sub : (strings.countLoop f s sub <= f)%nat.
Proof.
  revert s. induction f as [ | f IH ]; intros s; cbn; [lia | ].
  destruct (strings.Index s sub); [ | lia]. specialize (IH (strings.skip (n + String.length sub) s)). lia.
Qed.

Lemma splitLoop_join (k : nat) s sep :
  strings.Join (strings.splitLoop k s sep) sep = s
  /\ exists p ps, strings.splitLoop k s sep = p :: ps.
Proof.
  revert s. induction k as [ | k IH ]; intros s; cbn [strings.splitLoop].
  - split; [reflexivity | eauto].
  - destruct (strings.Index s sep) as [m | ] eqn:E; [ | split; [reflexivity | eauto]].
    destruct (IH (strings.skip (m + String.length sep) s)) as (Hjoin & p & ps & Hp).
    split; [ | eauto]. unfold strings.Join in *. rewrite Hp in Hjoin |- *.
    change (String.concat sep (String.substring 0 m s :: p :: ps))
      with (String.substring 0 m s ++ sep ++ String.concat sep (p :: ps)).
    rewrite Hjoin. symmetry. by apply Index_split.
Qed.

Lemma splitLoop_length (k : nat) s sep :
  (String.length s <= k)%nat -> sep <> "" ->
  length (strings.splitLoop (strings.countLoop k s sep) s sep)
    = S (strings.countLoop k s sep)
  /\ Forall (fun p => strings.Index p sep = None)
       (strings.splitLoop (strings.countLoop k s sep) s sep).
Proof.
  intros Hk Hsep. revert s Hk. induction k as [ | k IH ]; intros s Hk.
  - destruct s; [ | simpl in Hk; lia]. cbn. split; [reflexivity | ].
    constructor; [by destruct sep | constructor].
  - cbn [strings.countLoop]. destruct (strings.Index s sep) as [m | ] eqn:E.
    + cbn [strings.splitLoop]. rewrite E.
      destruct (IH (strings.skip (m + String.length sep) s)) as [Hlen Hfree].
      { rewrite skip_length. apply Index_bound in E.
        assert (0 < String.length sep)%nat by (destruct sep; [contradiction | simpl; lia]).
        lia. }
      split; [cbn [length]; by rewrite Hlen | ].
      constructor; [by apply Index_first | exact Hfree].
    + cbn [strings.splitLoop]. split; [reflexivity | ].
      constructor; [exact E | constructor].
Qed.

(** With a separator that is not empty, [strings.Split] makes one cut
    for each occurrence that [strings.Count] counted. *)
Lemma Split_loop s sep :
  sep <> "" ->
  strings.Split s sep
    = strings.splitLoop (strings.countLoop (String.length s) s sep) s sep.
Proof.
  intros Hsep. unfold strings.Split, strings.Count.
  destruct sep as [ | a sep ]; [contradiction | ].
  set (sp := String a sep) in *.
  pose proof (countLoop_le (String.length s) s sp) as Hle.
  replace (String.length s + 1 <? strings.countLoop (String.length s) s sp + 1)%nat
    with false by (symmetry; apply Nat.ltb_ge; lia).
  by replace (strings.countLoop (String.length s) s sp + 1 - 1)%nat
    with (strings.countLoop (String.length s) s sp) by lia.
Qed.

Lemma Split_nonempty s sep : sep <> "" -> strings.Split s sep <> [].
Proof.
  intros Hsep. rewrite (Split_loop s sep Hsep).
  by destruct (splitLoop_join (strings.countLoop (String.length s) s sep) s sep)
    as (_ & p & ps & ->).
Qed.

(** X1.  [strings.Split] with a separator that is not empty, as
    [setSliceValue] uses it: the text always splits into at least one
    part, one more than the separator occurs in it; no part contains the
    separator; and the parts joined by the separator are the text. *)
Theorem Split_parts (s sep : string) :
  sep <> "" ->
  strings.Split s sep <> []
  /\ length (strings.Split s sep) = S (strings.Count s sep)
  /\ Forall (fun p => strings.Index p sep = None) (strings.Split s sep)
  /\ strings.Join (strings.Split s sep) sep = s.
Proof.
  intros Hsep. rewrite (Split_loop s sep Hsep). unfold strings.Count.
  destruct (splitLoop_length (String.length s) s sep (le_n _) Hsep) as [Hlen Hfree].
  destruct (splitLoop_join (strings.countLoop (String.length s) s sep) s sep)
    as (Hjoin & p & ps & Hp).
  split; [by rewrite Hp | ]. split; [ | split; [exact Hfree | exact Hjoin]].
  rewrite Hlen. by destruct sep.
Qed.

Lemma Split_parts_witness :
  strings.Join (strings.Split "a,b,,c" ",") "," = "a,b,,c".
Proof. apply (Split_parts "a,b,,c" ","). discriminate. Defined.

(** ** Slice fields *)

Section SliceFacts.
Variable X : Externals.
Variable c : Loader.
Variable environ : gmap string string.

Local Abbreviation visit := (visit X c environ).

(** A slice that was filled has one element for each part, each the
    outcome of [setElem] on a zero element. *)
Lemma fillSlice_filled setElem z parts vs :
  fillSlice setElem z parts = Returns (inl vs) ->
  Forall2 (fun part v => exists set, setElem z part = (v, Returns (set, None))) parts vs.
Proof.
  revert vs. induction parts as [ | part parts IH ]; intros vs; cbn [fillSlice].
  - intros [= <-]. constructor.
  - destruct (setElem z part) as [v [[set [err | ]] | p]] eqn:E; try discriminate.
    destruct (fillSlice setElem z parts) as [[vs0 | err] | p]; try discriminate.
    intros [= <-]. constructor; [by exists set | by apply IH].
Qed.

(** The visit of an assignable slice field whose key is set. *)
Lemma visit_slice_field tf e vf pre s :
  CanSet tf = true -> Type_ tf = TSlice e ->
  LookupEnv environ (buildEnvKey c tf pre).1 = Some s ->
  visit tf vf pre =
    match setSliceValue c (fun v part => setFieldVal X c e true v part) e vf s with
    | (v, Returns None) => (v, (true, None))
    | (v, Returns (Some err)) =>
        (v, (false, Some (Wrapf err ("cannot set field " ++ (buildEnvKey c tf pre).1
                                       ++ " value"))))
    | (v, Panics p) =>
        (v, (false, Some (FieldPanic (TSlice e)
                            (strings.Join (buildEnvKey c tf pre).2 (sep c)) p)))
    end.
Proof.
  intros Hset Htype Hkey. rewrite visit_loadToField. unfold loadToField.
  rewrite Hset, Htype. destruct (buildEnvKey c tf pre) as [envKey nPrefix].
  cbn [fst snd negb getDirectType] in *. rewrite Hkey.
  unfold setFieldVal at 1. cbn [negb allocIfNil setDirectVal].
  unfold setKind. cbn [isTextUnmarshaler Kind isString isBool isDuration isInt isUint
                       isFloat isSliceField reflect.eqb].
  change (fun v part => setDirectVal X c e (allocIfNil e v) part)
    with (fun v part => setFieldVal X c e true v part).
  by destruct (setSliceValue c _ e vf s) as [v [[err | ] | p]].
Qed.

End SliceFacts.

(** X2.  An assignable slice field whose key is set, under a loader
    whose array separator is not empty, either fails and is left as it
    was, or becomes a slice with exactly one element for each part of the
    text (so at least one), each element being what [setFieldVal] makes of
    its own part starting from a zero element. *)
Theorem slice_field_one_element_per_part (X : Externals) (c : Loader)
    (environ : gmap string string) (tf : StructField rtype) (e : rtype) (vf : value)
    (pre : list string) (s : string) :
  CanSet tf = true -> Type_ tf = TSlice e -> arraySep c <> "" ->
  LookupEnv environ (buildEnvKey c tf pre).1 = Some s ->
  (exists elems,
      visit X c environ tf vf pre = (VSlice (Some elems), (true, None))
      /\ elems <> []
      /\ Forall2
           (fun part v => exists set,
              setFieldVal X c e true (zero e) part = (v, Returns (set, None)))
           (strings.Split s (arraySep c)) elems)
  \/ (exists err, visit X c environ tf vf pre = (vf, (false, Some err))).
Proof.
  intros Hset Htype Hsep Hkey.
  rewrite (visit_slice_field X c environ tf e vf pre s Hset Htype Hkey).
  unfold setSliceValue.
  pose proof (Split_nonempty s (arraySep c) Hsep) as Hne.
  destruct (strings.Split s (arraySep c)) as [ | part parts ] eqn:Hparts; [contradiction | ].
  cbn [length Nat.eqb].
  destruct (fillSlice _ (zero e) (part :: parts)) as [[elems | err] | p] eqn:Hfill.
  - left. exists elems. split; [reflexivity | ].
    pose proof (fillSlice_filled _ _ _ _ Hfill) as Hall. split; [ | exact Hall].
    intros ->. inversion Hall.
  - right. eauto.
  - right. eauto.
Qed.

Lemma slice_field_one_element_per_part_witness :
  (exists elems,
      visit noForeign (New []) {[ "NUMBERS" := "7,8" ]}
        (exported "Numbers" (TSlice (TInt I)) []) (VSlice None) []
        = (VSlice (Some elems), (true, None))
      /\ elems <> []
      /\ Forall2
           (fun part v => exists set,
              setFieldVal noForeign (New []) (TInt I) true (zero (TInt I)) part
                = (v, Returns (set, None)))
           (strings.Split "7,8" (arraySep (New []))) elems)
  \/ (exists err,
        visit noForeign (New []) {[ "NUMBERS" := "7,8" ]}
          (exported "Numbers" (TSlice (TInt I)) []) (VSlice None) []
          = (VSlice None, (false, Some err))).
Proof.
  apply (slice_field_one_element_per_part noForeign (New []) {[ "NUMBERS" := "7,8" ]}
           (exported "Numbers" (TSlice (TInt I)) []) (TInt I) (VSlice None) [] "7,8");
    [reflexivity | reflexivity | discriminate | reflexivity].
Defined.



(** ** Numerals *)

Lemma digit_bound ch d : strconv.digit ch = Some d -> 0 <= d <= 9.
Proof.
  unfold strconv.digit.
  destruct (Z.leb_spec 48 (Z.of_nat (nat_of_ascii ch)));
    destruct (Z.leb_spec (Z.of_nat (nat_of_ascii ch)) 57); cbn [andb];
    intros [= <-]; lia.
Qed.

Lemma decimalValue_nonneg s : 0 <= decimalValue s.
Proof.
  induction s as [ | ch s IH ]; cbn [decimalValue]; [lia | ].
  assert (0 <= default 0 (strconv.digit ch)).
  { destruct (strconv.digit ch) as [d | ] eqn:E; cbn; [apply digit_bound in E | ]; lia. }
  assert (0 < 10 ^ Z.of_nat (String.length s)) by (apply Z.pow_pos_nonneg; lia).
  nia.
Qed.

(** The loop of [ParseUint] at 64 bits ends without an error exactly on
    strings of digits whose value, after the digits already read, fits
    64 bits; it then returns that value. *)
Lemma parseUintLoop_value s : forall n r,
  0 <= n <= 2 ^ 64 - 1 ->
  strconv.parseUintLoop s n (2 ^ 64 - 1) = (r, None)
  <-> allDigits s = true
      /\ r = n * 10 ^ Z.of_nat (String.length s) + decimalValue s
      /\ r <= 2 ^ 64 - 1.
Proof.
  induction s as [ | ch s IH ]; intros n r Hn.
  - cbn. split; [intros [= <-]; split; [done | lia] | intros (_ & -> & _); f_equal; lia].
  - cbn [strconv.parseUintLoop allDigits decimalValue String.length].
    rewrite Nat2Z.inj_succ, Z.pow_succ_r by lia.
    pose proof (decimalValue_nonneg s) as Hv.
    assert (Hp : 0 < 10 ^ Z.of_nat (String.length s)) by (apply Z.pow_pos_nonneg; lia).
    set (P := 10 ^ Z.of_nat (String.length s)) in *. clearbody P.
    destruct (strconv.digit ch) as [d | ] eqn:Hd; [ | split; [discriminate | by intros (? & _)]].
    apply digit_bound in Hd. cbn [default id].
    change (strconv.maxUint64 / 10 + 1) with 1844674407370955162.
    change (2 ^ 64) with 18446744073709551616 in *.
    destruct (Z.leb_spec 1844674407370955162 n) as [Hcut | Hcut].
    { split; [discriminate | ]. intros (_ & -> & Hr). exfalso.
      assert (n * 1 <= n * P) by (apply Z.mul_le_mono_nonneg_l; lia).
      assert (0 <= d * P) by (apply Z.mul_nonneg_nonneg; lia). lia. }
    rewrite (Z.mod_small (n * 10)) by lia.
    destruct (Z.lt_ge_cases (n * 10 + d) 18446744073709551616) as [Hfit | Hover].
    + rewrite (Z.mod_small (n * 10 + d)) by lia.
      destruct (Z.ltb_spec (n * 10 + d) (n * 10)); [lia | ].
      destruct (Z.ltb_spec (18446744073709551616 - 1) (n * 10 + d)); [lia | ].
      cbn [orb]. rewrite IH by lia.
      split; intros (Hall & -> & Hr); (split; [done | split; [ring | lia]]).
    + assert (Hmod : (n * 10 + d) mod 18446744073709551616
                     = n * 10 + d - 18446744073709551616).
      { symmetry. apply (Z.mod_unique_pos _ _ 1); lia. }
      rewrite Hmod.
      destruct (Z.ltb_spec (n * 10 + d - 18446744073709551616) (n * 10)); [ | lia].
      cbn [orb]. split; [discriminate | ]. intros (_ & -> & Hr). exfalso.
      assert ((n * 10 + d) * 1 <= (n * 10 + d) * P)
        by (apply Z.mul_le_mono_nonneg_l; lia).
      lia.
Qed.

(** [strconv.ParseUint] at 64 bits accepts the unsigned numerals below
    [2 ^ 64] and nothing else. *)
Lemma ParseUint_64_numeral s v :
  strconv.ParseUint s 64 = (v, None) <-> unsignedNumeral s = Some v /\ v < 2 ^ 64.
Proof.
  unfold strconv.ParseUint, unsignedNumeral. destruct s as [ | ch s ].
  - split; [discriminate | by intros [? _]].
  - pose proof (parseUintLoop_value (String ch s) 0 v) as H.
    rewrite Z.mul_0_l, Z.add_0_l in H.
    destruct (strconv.parseUintLoop (String ch s) 0 (2 ^ 64 - 1)) as [n [e | ]] eqn:E.
    + split; [discriminate | ]. intros [Hnum Hv].
      destruct (allDigits (String ch s)); [ | discriminate]. injection Hnum as <-.
      assert (Hfalse : (n, Some e) = (decimalValue (String ch s), @None strconv.Err))
        by (apply H; [lia | split; [done | split; [done | lia]]]).
      discriminate.
    + split.
      * intros [= <-]. destruct H as [H _]; [lia | ]. destruct (H eq_refl) as (-> & -> & ?).
        split; [done | lia].
      * intros [Hnum Hv]. destruct (allDigits (String ch s)); [ | discriminate].
        injection Hnum as <-.
        assert (Heq : (n, @None strconv.Err) = (decimalValue (String ch s), None))
          by (apply H; [lia | split; [done | split; [done | lia]]]).
        by injection Heq as ->.
Qed.

(** [strconv.ParseInt] at 64 bits accepts the signed numerals of the
    [int64] range and nothing else. *)
Lemma ParseInt_64_numeral s i :
  strconv.ParseInt s 64 = (i, None)
  <-> signedNumeral s = Some i /\ - 2 ^ 63 <= i <= 2 ^ 63 - 1.
Proof.
  unfold strconv.ParseInt, signedNumeral. destruct s as [ | c0 rest ].
  { split; [discriminate | by intros [? _]]. }
  assert (Hbody : forall (neg : bool) body,
    (let '(un, err) := strconv.ParseUint body 64 in
     match err with
     | Some {| strconv.Cause := strconv.ErrSyntax |} =>
         (0, Some (strconv.mkNumError "ParseInt" (String c0 rest) strconv.ErrSyntax))
     | _ =>
         if negb neg && (2 ^ (64 - 1) <=? un)
         then (2 ^ (64 - 1) - 1,
               Some (strconv.mkNumError "ParseInt" (String c0 rest) strconv.ErrRange))
         else if neg && (2 ^ (64 - 1) <? un)
         then (- 2 ^ (64 - 1),
               Some (strconv.mkNumError "ParseInt" (String c0 rest) strconv.ErrRange))
         else (if neg then - un else un, None)
     end) = (i, None)
    <-> (if neg then Z.opp <$> unsignedNumeral body else unsignedNumeral body) = Some i
        /\ - 2 ^ 63 <= i <= 2 ^ 63 - 1).
  { intros neg body. change (2 ^ (64 - 1)) with (2 ^ 63).
    destruct (strconv.ParseUint body 64) as [un err] eqn:E.
    destruct err as [[f num [ | ]] | ].
    - split; [discriminate | ]. intros [Hnum Hi].
      assert (Hnone : forall v, strconv.ParseUint body 64 <> (v, None))
        by (intros v; rewrite E; discriminate).
      destruct (unsignedNumeral body) as [v | ] eqn:Hv; [ | by destruct neg].
      exfalso. apply (Hnone v), ParseUint_64_numeral. split; [done | ].
      destruct neg; cbn in Hnum; injection Hnum as <-; lia.
    - assert (un = 2 ^ 64 - 1) as ->.
      { unfold strconv.ParseUint in E. destruct body as [ | b body ]; [discriminate | ].
        destruct (strconv.parseUintLoop _ 0 (2 ^ 64 - 1)) as [n [[ | ] | ]] eqn:El;
          try discriminate.
        apply parseUintLoop_range in El. by injection E as <-. }
      split; [by destruct neg | ]. intros [Hnum Hi].
      assert (Hnone : forall v, strconv.ParseUint body 64 <> (v, None))
        by (intros v; rewrite E; discriminate).
      destruct (unsignedNumeral body) as [v | ] eqn:Hv; [ | by destruct neg].
      exfalso. apply (Hnone v), ParseUint_64_numeral. split; [done | ].
      destruct neg; cbn in Hnum; injection Hnum as <-; lia.
    - apply ParseUint_64_numeral in E as [Hnum Hun]. rewrite Hnum.
      assert (0 <= un).
      { unfold unsignedNumeral in Hnum. destruct body as [ | b body ]; [discriminate | ].
        destruct (allDigits _); [ | discriminate]. injection Hnum as <-.
        apply (decimalValue_nonneg (String b body)). }
      destruct neg; cbn [negb andb fmap option_fmap option_map].
      + destruct (Z.ltb_spec (2 ^ 63) un).
        * split; [discriminate | ]. intros [[= <-] ?]. lia.
        * split; [intros [= <-]; split; [done | lia] | by intros [[= <-] _]].
      + destruct (Z.leb_spec (2 ^ 63) un).
        * split; [discriminate | ]. intros [[= <-] ?]. lia.
        * split; [intros [= <-]; split; [done | lia] | by intros [[= <-] _]]. }
  destruct (Ascii.eqb c0 "+") eqn:Eplus; [exact (Hbody false rest) | ].
  destruct (Ascii.eqb c0 "-") eqn:Eminus; [exact (Hbody true rest) | ].
  exact (Hbody false (String c0 rest)).
Qed.

(** The conversion to a width keeps a number of that width. *)
Lemma toInt_small bits i :
  0 < bits -> - 2 ^ (bits - 1) <= i < 2 ^ (bits - 1) -> toInt bits i = i.
Proof.
  intros Hbits Hi. unfold toInt.
  replace (2 ^ bits) with (2 * 2 ^ (bits - 1))
    by (rewrite <- Z.pow_succ_r by lia; f_equal; lia).
  rewrite Z.mod_small; lia.
Qed.

Lemma toUint_small bits v : 0 <= v < 2 ^ bits -> toUint bits v = v.
Proof. intros Hv. unfold toUint. by apply Z.mod_small. Qed.

(** X4.  An assignable signed integer field whose key is set.  The text
    is accepted exactly when it is a signed numeral (decimal digits
    after at most one sign) of the [int64] range: a numeral within the
    width of the field is stored as it is, any accepted numeral is
    stored cut to the width, and every other text gives an error that
    wraps the parser's and names the key, the field keeping its value. *)
Theorem int_field_numeral (X : Externals) (c : Loader) (environ : gmap string string)
    (tf : StructField rtype) (w : intSize) (vf : value) (pre : list string) (raw : string) :
  CanSet tf = true -> Type_ tf = TInt w ->
  LookupEnv environ (buildEnvKey c tf pre).1 = Some raw ->
  (forall i, signedNumeral raw = Some i ->
     - 2 ^ (intBits w - 1) <= i < 2 ^ (intBits w - 1) ->
     visit X c environ tf vf pre = (VInt i, (true, None)))
  /\ (forall i, signedNumeral raw = Some i -> - 2 ^ 63 <= i <= 2 ^ 63 - 1 ->
        visit X c environ tf vf pre = (VInt (toInt (intBits w) i), (true, None)))
  /\ ((forall i, signedNumeral raw = Some i -> ~ - 2 ^ 63 <= i <= 2 ^ 63 - 1) ->
      exists err,
        visit X c environ tf vf pre =
          (vf, (false, Some (Wrapf (NumErr err)
                               ("cannot set field " ++ (buildEnvKey c tf pre).1
                                  ++ " value"))))).
Proof.
  intros Hset Htype Hkey.
  rewrite (visit_int_field X c environ tf w vf pre raw Hset Htype Hkey).
  assert (Hok : forall i, signedNumeral raw = Some i -> - 2 ^ 63 <= i <= 2 ^ 63 - 1 ->
                          strconv.ParseInt raw 64 = (i, None))
    by (intros i Hnum Hi; by apply ParseInt_64_numeral).
  split; [ | split].
  - intros i Hnum Hi.
    assert (Hwide : - 2 ^ 63 <= i <= 2 ^ 63 - 1) by (destruct w; cbn in Hi; lia).
    rewrite (Hok i Hnum Hwide), toInt_small; [done | by destruct w | done].
  - intros i Hnum Hi. by rewrite (Hok i Hnum Hi).
  - intros Hnot. destruct (strconv.ParseInt raw 64) as [i [err | ]] eqn:E; [by exists err | ].
    apply ParseInt_64_numeral in E as [Hnum Hi]. by destruct (Hnot i Hnum).
Qed.

Lemma int_field_numeral_witness :
  visit noForeign (New []) {[ "OFFSET" := "-8080" ]}
    (exported "Offset" (TInt I16) []) (VInt 0) []
  = (VInt (-8080), (true, None)).
Proof.
  apply (int_field_numeral noForeign (New []) {[ "OFFSET" := "-8080" ]}
           (exported "Offset" (TInt I16) []) I16 (VInt 0) [] "-8080");
    [reflexivity | reflexivity | reflexivity | reflexivity | cbn; lia].
Defined.

(** X5.  An assignable unsigned integer field whose key is set.  The
    text is accepted exactly when it is an unsigned numeral (decimal
    digits and no sign, not even [+]) below [2 ^ 64]: a numeral within
    the width of the field is stored as it is, any accepted numeral is
    stored cut to the width, and every other text gives an error that
    wraps the parser's and names the key, the field keeping its value. *)
Theorem uint_field_numeral (X : Externals) (c : Loader) (environ : gmap string string)
    (tf : StructField rtype) (w : uintSize) (vf : value) (pre : list string) (raw : string) :
  CanSet tf = true -> Type_ tf = TUint w ->
  LookupEnv environ (buildEnvKey c tf pre).1 = Some raw ->
  (forall v, unsignedNumeral raw = Some v -> v < 2 ^ uintBits w ->
     visit X c environ tf vf pre = (VUint v, (true, None)))
  /\ (forall v, unsignedNumeral raw = Some v -> v < 2 ^ 64 ->
        visit X c environ tf vf pre = (VUint (toUint (uintBits w) v), (true, None)))
  /\ ((forall v, unsignedNumeral raw = Some v -> ~ v < 2 ^ 64) ->
      exists err,
        visit X c environ tf vf pre =
          (vf, (false, Some (Wrapf (NumErr err)
                               ("cannot set field " ++ (buildEnvKey c tf pre).1
                                  ++ " value"))))).
Proof.
  intros Hset Htype Hkey.
  rewrite (visit_uint_field X c environ tf w vf pre raw Hset Htype Hkey).
  assert (Hok : forall v, unsignedNumeral raw = Some v -> v < 2 ^ 64 ->
                          strconv.ParseUint raw 64 = (v, None))
    by (intros v Hnum Hv; by apply ParseUint_64_numeral).
  assert (Hpos : forall v, unsignedNumeral raw = Some v -> 0 <= v).
  { intros v. unfold unsignedNumeral. destruct raw as [ | b raw ]; [discriminate | ].
    destruct (allDigits _); [ | discriminate]. intros [= <-].
    apply (decimalValue_nonneg (String b raw)). }
  split; [ | split].
  - intros v Hnum Hv.
    assert (Hwide : v < 2 ^ 64) by (destruct w; cbn in Hv; lia).
    rewrite (Hok v Hnum Hwide), toUint_small; [done | ]. split; [by apply Hpos | done].
  - intros v Hnum Hv. by rewrite (Hok v Hnum Hv).
  - intros Hnot. destruct (strconv.ParseUint raw 64) as [v [err | ]] eqn:E; [by exists err | ].
    apply ParseUint_64_numeral in E as [Hnum Hv]. by destruct (Hnot v Hnum).
Qed.

Lemma uint_field_numeral_witness :
  exists err,
    visit noForeign (New []) {[ "RETRIES" := "+3" ]}
      (exported "Retries" (TUint U8) []) (VUint 0) []
    = (VUint 0, (false, Some (Wrapf (NumErr err) "cannot set field RETRIES value"))).
Proof.
  apply (uint_field_numeral noForeign (New []) {[ "RETRIES" := "+3" ]}
           (exported "Retries" (TUint U8) []) U8 (VUint 0) [] "+3");
    [reflexivity | reflexivity | reflexivity | ].
  intros v Hnum. discriminate Hnum.
Defined.

(** ** The naming strategy *)

Lemma ToUpper_not_lower ch : unicode.IsLower (unicode.ToUpper ch) = false.
Proof. by destruct ch as [[] [] [] [] [] [] [] []]. Qed.

Lemma canToUpper_lower ch : canToUpper ch = unicode.IsLower ch.
Proof. by destruct ch as [[] [] [] [] [] [] [] []]. Qed.

Lemma IsUpper_not_lower ch : unicode.IsUpper ch = true -> unicode.IsLower ch = false.
Proof. by destruct ch as [[] [] [] [] [] [] [] []]. Qed.

Lemma ToUpper_fixed ch : unicode.IsLower ch = false -> unicode.ToUpper ch = ch.
Proof. unfold unicode.ToUpper. by intros ->. Qed.

Lemma upperCaseLoop_letters prev s :
  withoutUnderscores (upperCaseLoop prev s) = withoutUnderscores (upper s)
  /\ noLower (upperCaseLoop prev s) = true.
Proof.
  revert prev. induction s as [ | ch s IH ]; intros prev; [done | ].
  cbn [upperCaseLoop upper]. destruct (IH (Some ch)) as [Hsame Hno].
  match goal with |- context [if ?b then _ else _] => destruct b eqn:Hsplit end.
  - assert (Hup : unicode.IsUpper ch = true).
    { destruct prev as [p | ]; [ | discriminate].
      by destruct (unicode.IsUpper ch). }
    pose proof (IsUpper_not_lower ch Hup) as Hlow.
    cbn [withoutUnderscores noLower]. rewrite (ToUpper_fixed ch Hlow), Hlow, Hsame, Hno.
    change (Ascii.eqb "_" "_") with true. cbn [negb andb].
    split; [done | ]. by destruct ch as [[] [] [] [] [] [] [] []].
  - cbn [withoutUnderscores noLower]. by rewrite ToUpper_not_lower, Hsame, Hno.
Qed.

Lemma upperCaseLoop_fixed s : forall prev,
  noLower s = true ->
  match prev with Some p => unicode.IsLower p = false | None => True end ->
  upperCaseLoop prev s = s.
Proof.
  induction s as [ | ch s IH ]; intros prev Hno Hprev; [done | ].
  cbn [noLower] in Hno. apply andb_prop in Hno as [Hch Hs].
  apply negb_true_iff in Hch. cbn [upperCaseLoop].
  assert (Hnext : match s with String d _ => canToUpper d | EmptyString => false end = false).
  { destruct s as [ | d s ]; [done | ]. rewrite canToUpper_lower.
    cbn [noLower] in Hs. apply andb_prop in Hs as [Hd _]. by apply negb_true_iff in Hd. }
  rewrite Hnext.
  assert (Hsplit : match prev with
                   | None => false
                   | Some p =>
                       unicode.IsUpper ch && unicode.IsLetter ch && negb (Ascii.eqb p "_")
                         && (false || canToUpper p)
                   end = false).
  { destruct prev as [p | ]; [ | done]. rewrite canToUpper_lower, Hprev.
    cbn [orb]. by rewrite andb_false_r. }
  rewrite Hsplit, (ToUpper_fixed ch Hch). f_equal. by apply IH.
Qed.

(** X6.  [UperCaseTransformer] does nothing to a name but put letters
    in upper case and insert underscores: without its underscores, the
    result is the name in upper case without its underscores, and no
    lower-case letter is left in it. *)
Theorem UperCaseTransformer_keeps_letters (key : string) :
  withoutUnderscores (UperCaseTransformer key) = withoutUnderscores (upper key)
  /\ noLower (UperCaseTransformer key) = true.
Proof. apply upperCaseLoop_letters. Qed.

(** X7.  [UperCaseTransformer] leaves a name without lower-case letters,
    such as a name that is in upper case with underscores already, as it
    is. *)
Theorem UperCaseTransformer_fixed (key : string) :
  noLower key = true -> UperCaseTransformer key = key.
Proof. intros Hno. by apply upperCaseLoop_fixed. Qed.

Lemma UperCaseTransformer_fixed_witness :
  UperCaseTransformer "DB_HOST2" = "DB_HOST2".
Proof. apply (UperCaseTransformer_fixed "DB_HOST2"). reflexivity. Defined.

(** X8.  [UperCaseTransformer] is idempotent: a name it has made is a
    name it keeps. *)
Theorem UperCaseTransformer_idempotent (key : string) :
  UperCaseTransformer (UperCaseTransformer key) = UperCaseTransformer key.
Proof.
  unfold UperCaseTransformer. apply upperCaseLoop_fixed; [ | done].
  apply upperCaseLoop_letters.
Qed.

(** ** Options *)

Lemma New_snoc (options : list Option) (opt : Option) :
  New (options ++ [opt])%list = opt (New options).
Proof. unfold New. by rewrite fold_left_app. Qed.

Lemma last_omap_snoc {A B : Type} (f : A -> option B) (l : list A) (x : A) :
  last (omap f (l ++ [x])%list) = match f x with Some y => Some y | None => last (omap f l) end.
Proof.
  rewrite omap_app. cbn [omap list_omap]. destruct (f x) as [y | ].
  - by rewrite last_snoc.
  - by rewrite app_nil_r.
Qed.

(** X9.  The loader [New] makes from calls of the four [With...]
    functions, in any number and order: each of its four settings is the
    argument of the last call for that setting, and the default (no
    prefix, [_], [,], [UperCaseTransformer]) when there is no such call;
    an option never changes a setting other than its own. *)
Theorem New_last_option_wins (calls : list setting) :
  prefix (New (map optionOf calls)) = default "" (last (omap prefixOf calls))
  /\ sep (New (map optionOf calls))
     = default DefaultSep (last (omap separatorOf calls))
  /\ arraySep (New (map optionOf calls))
     = default DefaultArrSep (last (omap arraySeparatorOf calls))
  /\ fieldNameTransformer (New (map optionOf calls))
     = default (Some UperCaseTransformer) (last (omap keyTransformerOf calls)).
Proof.
  induction calls as [ | o calls IH ] using rev_ind; [done | ].
  rewrite map_app. cbn [map]. rewrite New_snoc, !last_omap_snoc.
  destruct IH as (Hp & Hs & Ha & Ht). by destruct o.
Qed.

(** ** What the walk reads of the environment *)

Section Frame.
Variable X : Externals.
Variable c : Loader.
Variables e1 e2 : gmap string string.









End Frame.



(** ** Fields that are not exported *)

Lemma fieldLoop_keeps step pre fs : forall vs found (i : nat) tf,
  (forall tf vf, CanSet tf = false -> step tf vf pre = (vf, (false, None))) ->
  fs !! i = Some tf -> CanSet tf = false ->
  (fieldLoop step pre fs vs found).1 !! i = vs !! i.
Proof.
  induction fs as [ | tf0 fs IH ]; intros vs found i tf Hstep Hf Hset; [done | ].
  destruct vs as [ | vf vs ]; [done | ]. rewrite fieldLoop_cons.
  destruct i as [ | i ].
  - injection Hf as ->. by rewrite (Hstep tf vf Hset).
  - destruct (step tf0 vf pre) as [vf' [ff [err | ]]]; [done | ].
    cbn [fst]. change ((vf' :: ?l) !! S i) with (l !! i).
    by apply (IH vs _ i tf).
Qed.

(** X11.  A field that is not exported is never touched.  In every
    record on which [loopOverFields] runs (the one [Load] is given, and
    each record below it that the walk enters) a field that is not
    exported comes out as it went in, whether the walk succeeds or fails
    and whatever the environment holds. *)
Theorem unexported_fields_kept (X : Externals) (c : Loader)
    (environ : gmap string string) (fs : list (StructField rtype)) (vs : list value)
    (pre : list string) (i : nat) (tf : StructField rtype) :
  fs !! i = Some tf -> CanSet tf = false ->
  (exists vs',
      (loopOverFields X c environ (TStruct fs) (VStruct vs) pre).1 = VStruct vs'
      /\ length vs' = length vs /\ vs' !! i = vs !! i)
  /\ (exists vs',
        (Load X c environ (TPtr (TStruct fs)) (addr (VStruct vs))).1 = addr (VStruct vs')
        /\ length vs' = length vs /\ vs' !! i = vs !! i).
Proof.
  intros Hf Hset.
  assert (Hkeep : forall pre0,
    (fieldLoop (visit X c environ) pre0 fs vs false).1 !! i = vs !! i).
  { intros pre0. apply (fieldLoop_keeps _ _ _ _ _ i tf); try done.
    intros tf0 vf0 H0. by apply visit_unsettable. }
  split.
  - exists (fieldLoop (visit X c environ) pre fs vs false).1.
    split; [by rewrite loopOverFields_struct | ]. split; [apply fieldLoop_length | apply Hkeep].
  - exists (fieldLoop (visit X c environ) [] fs vs false).1.
    split; [by rewrite Load_struct | ]. split; [apply fieldLoop_length | apply Hkeep].
Qed.

Lemma unexported_fields_kept_witness :
  exists vs',
    (Load noForeign (New []) {[ "HOST" := "db"; "SECRET" := "leak" ]}
       (TPtr (TStruct [exported "Host" TString []; mkField "secret" "main" TString [] false]))
       (addr (VStruct [VString ""; VString "mine"]))).1 = addr (VStruct vs')
    /\ length vs' = length [VString ""; VString "mine"]
    /\ vs' !! 1%nat = [VString ""; VString "mine"] !! 1%nat.
Proof.
  apply (unexported_fields_kept noForeign (New []) {[ "HOST" := "db"; "SECRET" := "leak" ]}
           [exported "Host" TString []; mkField "secret" "main" TString [] false]
           [VString ""; VString "mine"] [] 1
           (mkField "secret" "main" TString [] false));
    reflexivity.
Defined.

(** ** Pointer fields whose own key is set *)

(** X12.  A nil pointer to a plain struct whose own key is set cannot
    be loaded.  [setFieldVal] allocates the record before it finds that
    a struct takes no text; [setStructVal] then meets a pointer that is
    no longer nil and takes its address, and [NumField] panics on the
    pointer.  The visit ends with the recovered panic and leaves the
    field pointing to a zero record; [Load] on a record with such a
    field returns an error. *)
Theorem nil_pointer_own_key_fails (X : Externals) (c : Loader)
    (environ : gmap string string) (fs : list (StructField rtype)) (vs : list value)
    (i : nat) (tf : StructField rtype) (fs' : list (StructField rtype)) (s : string) :
  fs !! i = Some tf -> vs !! i = Some (VPtr None) ->
  CanSet tf = true -> Type_ tf = TPtr (TStruct fs') ->
  LookupEnv environ (buildEnvKey c tf []).1 = Some s ->
  visit X c environ tf (VPtr None) [] =
    (VPtr (Some (zero (TStruct fs'))),
     (false, Some (StructPanic (TPtr (TPtr (TStruct fs')))
                     (strings.Join (buildEnvKey c tf []).2 (sep c))
                     (ValueError "reflect.Value.NumField" reflect.Pointer))))
  /\ exists e, (Load X c environ (TPtr (TStruct fs)) (addr (VStruct vs))).2 = Some e.
Proof.
  intros Hf Hv Hset Htype Hkey.
  assert (Hvisit : visit X c environ tf (VPtr None) [] =
    (VPtr (Some (zero (TStruct fs'))),
     (false, Some (StructPanic (TPtr (TPtr (TStruct fs')))
                     (strings.Join (buildEnvKey c tf []).2 (sep c))
                     (ValueError "reflect.Value.NumField" reflect.Pointer))))).
  { rewrite visit_loadToField. unfold loadToField. rewrite Hset, Htype.
    destruct (buildEnvKey c tf []) as [envKey nPrefix]. cbn [fst snd] in *.
    by rewrite Hkey. }
  split; [exact Hvisit | ].
  rewrite Load_struct. cbn [snd].
  destruct (fieldLoop_fails (visit X c environ) [] fs vs i tf (VPtr None) false Hf Hv)
    as (vs' & e & E); [rewrite Hvisit; eauto | ].
  rewrite E. eauto.
Qed.

Lemma nil_pointer_own_key_fails_witness :
  exists e,
    (Load noForeign (New []) {[ "DB" := "postgres" ]}
       (TPtr (TStruct [exported "DB" (TPtr (TStruct [exported "Host" TString []])) []]))
       (addr (VStruct [VPtr None]))).2 = Some e.
Proof.
  apply (nil_pointer_own_key_fails noForeign (New []) {[ "DB" := "postgres" ]}
           [exported "DB" (TPtr (TStruct [exported "Host" TString []])) []]
           [VPtr None] 0
           (exported "DB" (TPtr (TStruct [exported "Host" TString []])) [])
           [exported "Host" TString []] "postgres");
    reflexivity.
Defined.

(** X13.  A pointer to a type that takes text is loaded as the type
    itself, behind the pointer.  When the key is set, the visit of an
    exported field of type [*e] gives what the visit of the same field
    at type [e] gives on the value pointed to (on a zero value, when the
    pointer is nil), and leaves the field pointing to that outcome.  So
    a nil pointer is allocated even when the text is refused. *)
Theorem pointer_field_as_pointee (X : Externals) (c : Loader)
    (environ : gmap string string) (name : string) (tag : list (string * string))
    (anonymous : bool) (e : rtype) (target : option value) (pre : list string)
    (s : string) :
  Kind e <> reflect.Pointer -> takesText e = true ->
  LookupEnv environ (buildEnvKey c (mkField name "" e tag anonymous) pre).1 = Some s ->
  visit X c environ (mkField name "" (TPtr e) tag anonymous) (VPtr target) pre =
    (VPtr (Some (visit X c environ (mkField name "" e tag anonymous)
                   (default (zero e) target) pre).1),
     (visit X c environ (mkField name "" e tag anonymous)
        (default (zero e) target) pre).2).
Proof.
  intros Hkind Htext Hkey. rewrite !visit_loadToField. unfold loadToField.
  change (buildEnvKey c (mkField name "" (TPtr e) tag anonymous) pre)
    with (buildEnvKey c (mkField name "" e tag anonymous) pre).
  destruct (buildEnvKey c (mkField name "" e tag anonymous) pre) as [envKey nPrefix].
  cbn [fst snd CanSet PkgPath Type_ String.eqb negb getDirectType] in *. rewrite Hkey.
  unfold setFieldVal. cbn [negb].
  assert (Halloc : allocIfNil (TPtr e) (VPtr target) = VPtr (Some (default (zero e) target)))
    by (by destruct target).
  assert (Hnone : forall v, allocIfNil e v = v) by (intros v; by destruct e).
  rewrite Halloc, Hnone. cbn [setDirectVal].
  pose proof (setDirectVal_takes X c e Htext (default (zero e) target) s) as Htakes.
  destruct (setDirectVal X c e (default (zero e) target) s) as [v [[[] [err | ]] | p]];
    try reflexivity.
  by destruct Htakes.
Qed.

Lemma pointer_field_as_pointee_witness :
  visit noForeign (New []) {[ "RETRIES" := "many" ]}
    (mkField "Retries" "" (TPtr (TInt I)) [] false) (VPtr None) []
  = (VPtr (Some (visit noForeign (New []) {[ "RETRIES" := "many" ]}
                   (mkField "Retries" "" (TInt I) [] false) (VInt 0) []).1),
     (visit noForeign (New []) {[ "RETRIES" := "many" ]}
        (mkField "Retries" "" (TInt I) [] false) (VInt 0) []).2).
Proof.
  apply (pointer_field_as_pointee noForeign (New []) {[ "RETRIES" := "many" ]}
           "Retries" [] false (TInt I) None [] "many");
    [discriminate | reflexivity | reflexivity].
Defined.

(** ** Kinds without a case *)

(** X14.  A field of a kind the loader has no case for (a complex
    number, an array, a channel, a function, an interface, an unsafe
    pointer) matters only when its key is set: without the key the
    field is passed over without an error, with the key the visit fails
    with "unsupported", wrapped with the key, and the field keeps its
    value. *)
Theorem unsupported_kind_only_when_set (X : Externals) (c : Loader)
    (environ : gmap string string) (tf : StructField rtype) (k : otherKind)
    (vf : value) (pre : list string) :
  CanSet tf = true -> Type_ tf = TOther k ->
  visit X c environ tf vf pre =
    match LookupEnv environ (buildEnvKey c tf pre).1 with
    | None => (vf, (false, None))
    | Some _ =>
        (vf, (false, Some (Wrapf (Unsupported (TOther k))
                             ("cannot set field " ++ (buildEnvKey c tf pre).1
                                ++ " value"))))
    end.
Proof.
  intros Hset Htype. rewrite visit_loadToField. unfold loadToField.
  rewrite Hset, Htype. destruct (buildEnvKey c tf pre) as [envKey nPrefix].
  cbn [fst snd negb getDirectType].
  destruct (LookupEnv environ envKey) as [envVal | ]; by destruct k.
Qed.

Lemma unsupported_kind_only_when_set_witness :
  visit noForeign (New []) ∅ (exported "Done" (TOther Chan) []) VOpaque []
  = (VOpaque, (false, None)).
Proof.
  rewrite (unsupported_kind_only_when_set noForeign (New []) ∅
             (exported "Done" (TOther Chan) []) Chan VOpaque []);
    reflexivity.
Defined.

(** ** What an error tells *)

Section Blame.
Variable X : Externals.
Variable c : Loader.
Variable environ : gmap string string.

Lemma blames_tail tf fs pre e :
  blames environ c fs pre e -> blames environ c (tf :: fs) pre e.
Proof.
  intros [H | [H | (q & k & text & cause & Hk & Hset & ->)]]; [by left | by right; left | ].
  right; right. destruct q as [ | i q ]; [discriminate | ].
  exists (S i :: q), k, text, cause. by rewrite keyAt_tail.
Qed.

Lemma blames_below tf fs fs' pre e :
  CanSet tf = true -> descends (Type_ tf) = true -> structFields (Type_ tf) = Some fs' ->
  blames environ c fs' (buildEnvKey c tf pre).2 e -> blames environ c (tf :: fs) pre e.
Proof.
  intros Hset Hd Hfs [H | [H | (q & k & text & cause & Hk & Hval & ->)]];
    [by left | by right; left | ].
  right; right. destruct q as [ | j q ]; [discriminate | ].
  exists (0%nat :: j :: q), k, text, cause.
  by rewrite (keyAt_below c tf fs fs' pre j q Hset Hd Hfs).
Qed.

(** An error that a walker returns is an error of the loop over the
    fields of a struct. *)
Lemma loopOverFields_error T v pre v' b e :
  loopOverFields X c environ T v pre = (v', Returns (b, Some e)) ->
  exists fs vs,
    structFields T = Some fs
    /\ (fieldLoop (visit X c environ) pre fs vs false).2 = (b, Some e).
Proof.
  induction T as [ | | | | | | | e0 _ | k e0 _ _ | fs0 _ | e0 IH | name u IH ]
    using rtype_induction; try discriminate.
  - destruct v as [ | | | | | | | | vs | ]; try discriminate.
    rewrite loopOverFields_struct. intros [= _ H]. by exists fs0, vs.
  - exact IH.
  - exact IH.
Qed.


(** An error of [setStructVal] is the recovered panic of its walker, or
    an error that its walker returned. *)
Lemma setStructVal_error_source (loop : walker) t vf pre vf' b e :
  setStructVal c loop t vf pre = (vf', (b, Some e)) ->
  (exists ty p, e = StructPanic ty (strings.Join pre (sep c)) p)
  \/ (exists v v' b', loop v pre = (v', Returns (b', Some e))).
Proof.
  unfold setStructVal, recursiveLoadToStruct.
  destruct (reflect.eqb (Kind t) reflect.Pointer && IsNil vf) eqn:Hneed.
  - apply andb_prop in Hneed as [-> _]. cbn [negb].
    destruct (loop (zero (Elem t)) pre) as [v' [[b' [e' | ]] | p]] eqn:El.
    + intros [= _ _ <-]. right. eauto.
    + destruct b'; discriminate.
    + intros [= _ _ <-]. left. eauto.
  - cbn [Kind reflect.eqb negb].
    destruct (loop vf pre) as [v' [[b' [e' | ]] | p]] eqn:El.
    + intros [= _ _ <-]. right. eauto.
    + discriminate.
    + intros [= _ _ <-]. left. eauto.
Qed.

(** One field: an error of the visit blames the field, or what is
    below it. *)
Lemma visit_blames_step tf fs pre vf vf' b e :
  (forall fs' vs b' e',
     structFields (Type_ tf) = Some fs' ->
     (fieldLoop (visit X c environ) (buildEnvKey c tf pre).2 fs' vs false).2 = (b', Some e') ->
     blames environ c fs' (buildEnvKey c tf pre).2 e') ->
  visit X c environ tf vf pre = (vf', (b, Some e)) ->
  blames environ c (tf :: fs) pre e.
Proof.
  intros IH. rewrite visit_loadToField. unfold loadToField.
  destruct (CanSet tf) eqn:Hset; [ | discriminate]. cbn [negb].
  pose proof (keyAt_head c tf fs pre Hset) as Hhead.
  destruct (buildEnvKey c tf pre) as [envKey nPrefix] eqn:Ekey. cbn [fst snd] in *.
  assert (Hdescend : forall vf0,
    (if isStruct (Kind (getDirectType (Type_ tf)))
     then setStructVal c (loopOverFields X c environ (Type_ tf)) (Type_ tf) vf0 nPrefix
     else (vf0, (false, None))) = (vf', (b, Some e)) ->
    blames environ c (tf :: fs) pre e).
  { intros vf0. destruct (isStruct (Kind (getDirectType (Type_ tf)))) eqn:Hd; [ | discriminate].
    intros Hs. apply setStructVal_error_source in Hs as [(ty & p & ->) | (v & v' & b' & El)].
    - left. eauto.
    - destruct (loopOverFields_error _ _ _ _ _ _ El) as (fs' & vs & Hfs & Hloop).
      apply (blames_below tf fs fs' pre e Hset Hd Hfs). rewrite Ekey. cbn [snd].
      by apply (IH fs' vs b' e Hfs). }
  destruct (LookupEnv environ envKey) as [envVal | ] eqn:Hkey; [ | apply Hdescend].
  destruct (setFieldVal X c (Type_ tf) true vf envVal) as [v1 [[[] [err | ]] | p]].
  - intros [= _ _ <-]. right; right. by exists [0%nat], envKey, envVal, err.
  - discriminate.
  - intros [= _ _ <-]. right; right. by exists [0%nat], envKey, envVal, err.
  - apply Hdescend.
  - intros [= _ _ <-]. right; left. eauto.
Qed.

(** The loop over the fields: its error blames a field below it. *)
Lemma fields_blame fs :
  forall pre vs found b e,
    (fieldLoop (visit X c environ) pre fs vs found).2 = (b, Some e) ->
    blames environ c fs pre e.
Proof.
  induction fs as [fs IH] using fields_induction.
  assert (Hsuffix : forall fs0, (forall tf, tf ∈ fs0 -> tf ∈ fs) ->
    forall pre vs found b e,
      (fieldLoop (visit X c environ) pre fs0 vs found).2 = (b, Some e) ->
      blames environ c fs0 pre e).
  { induction fs0 as [ | tf fs0 IH0 ]; intros Hin pre vs found b e; [discriminate | ].
    destruct vs as [ | vf vs ]; [discriminate | ].
    rewrite fieldLoop_cons.
    destruct (visit X c environ tf vf pre) as [vf' [ff [err | ]]] eqn:Ev.
    - intros [= _ <-]. apply (visit_blames_step tf fs0 pre vf vf' ff err); [ | exact Ev].
      intros fs' vs' b' e' Hfs. apply (IH tf fs'); [apply Hin; left | exact Hfs].
    - cbn [snd]. intros Hrest. apply blames_tail.
      apply (IH0 (fun tf' H => Hin tf' (list_elem_of_further _ _ _ H)) pre vs _ b e Hrest). }
  apply Hsuffix. auto.
Qed.

End Blame.

(** X15.  What the error of a failed [Load] tells.  The error reports
    a recovered panic, or it is "cannot set field K value" around the
    error of the conversion, where K is the key of a field the walk can
    reach and K is set in the environment: a refused text is always
    reported with the name of its variable. *)
Theorem Load_error_names_the_key (X : Externals) (c : Loader)
    (environ : gmap string string) (fs : list (StructField rtype)) (s : value)
    (e : error) :
  (Load X c environ (TPtr (TStruct fs)) s).2 = Some e ->
  blames environ c fs [] e.
Proof.
  unfold Load, recursiveLoadToStruct. cbn [Kind reflect.eqb negb].
  destruct s as [ | | | | | | | | | [v | ]];
    try (intros [= <-]; left; eauto).
  rewrite loopOverFields_direct. cbn [getDirectType].
  destruct v as [ | | | | | | | | vs | ]; try (intros [= <-]; left; eauto).
  rewrite loopOverFields_struct.
  destruct (fieldLoop (visit X c environ) [] fs vs false) as [vs' [b o]] eqn:El.
  cbn. intros ->. apply (fields_blame X c environ fs [] vs false b e). by rewrite El.
Qed.

Lemma Load_error_names_the_key_witness :
  blames {[ "PORT" := "http" ]} (New []) [exported "Port" (TInt I) []] []
    (Wrapf (NumErr (strconv.mkNumError "ParseInt" "http" strconv.ErrSyntax))
       "cannot set field PORT value").
Proof.
  apply (Load_error_names_the_key noForeign (New []) {[ "PORT" := "http" ]}
           [exported "Port" (TInt I) []] (addr (VStruct [VInt 0]))).
  reflexivity.
Defined.

(** ** Text in base 64 *)

(** X16.  A field of type [configtype.Base64] whose key is set.  Empty
    text leaves the field as it is and still counts as set; other text
    is handed to the decoder, whose result is stored, or whose error
    comes back wrapped twice ("failed to decode base64 string", then the
    key) with the field as it was. *)
Theorem Base64_field (X : Externals) (c : Loader) (environ : gmap string string)
    (DecodeString : string -> string * option error) (tf : StructField rtype)
    (name : string) (vf : value) (pre : list string) (s : string) :
  CanSet tf = true -> Type_ tf = TText name TString ->
  (forall b data,
     UnmarshalText X name b data = configtype.Base64_UnmarshalText DecodeString b data) ->
  LookupEnv environ (buildEnvKey c tf pre).1 = Some s ->
  visit X c environ tf vf pre =
    if String.eqb s "" then (vf, (true, None))
    else
      match DecodeString s with
      | (decoded, None) => (VString decoded, (true, None))
      | (_, Some err) =>
          (vf, (false, Some (Wrapf (Wrapf err "failed to decode base64 string")
                               ("cannot set field " ++ (buildEnvKey c tf pre).1
                                  ++ " value"))))
      end.
Proof.
  intros Hset Htype Hmethod Hkey. rewrite visit_loadToField. unfold loadToField.
  rewrite Hset, Htype. destruct (buildEnvKey c tf pre) as [envKey nPrefix].
  cbn [fst snd negb getDirectType] in *. rewrite Hkey.
  unfold setFieldVal. cbn [negb allocIfNil setDirectVal]. unfold setKind.
  cbn [isTextUnmarshaler]. rewrite Hmethod. unfold configtype.Base64_UnmarshalText.
  destruct s as [ | ch s ]; [reflexivity | ]. cbn [String.length Nat.eqb String.eqb].
  by destruct (DecodeString (String ch s)) as [decoded [err | ]].
Qed.

Lemma Base64_field_witness :
  visit
    {| ParseFloat := ParseFloat noForeign; float32 := float32 noForeign;
       ParseDuration := ParseDuration noForeign; jsonUnmarshal := jsonUnmarshal noForeign;
       UnmarshalText := fun _ => configtype.Base64_UnmarshalText (fun data => (data, None)) |}
    (New []) {[ "SECRET" := "" ]}
    (exported "Secret" (TText "configtype.Base64" TString) []) (VString "kept") []
  = (VString "kept", (true, None)).
Proof.
  rewrite (Base64_field _ (New []) {[ "SECRET" := "" ]} (fun data => (data, None))
             (exported "Secret" (TText "configtype.Base64" TString) [])
             "configtype.Base64" (VString "kept") [] "");
    reflexivity.
Defined.

(** ** Loading twice *)

Section Again.
Variable X : Externals.
Variable c : Loader.
Variable environ : gmap string string.

(** What [setFieldVal] made of a text, it makes again from the value it
    left. *)
Lemma setDirectVal_again t :
  repeatable t = true ->
  forall v s,
    setDirectVal X c t (setDirectVal X c t v s).1 s = setDirectVal X c t v s.
Proof.
  induction t as [ | w | w | w | | | k | e _ | k e _ _ | fs0 _ | e IH | name u _ ]
    using rtype_induction; intros Hrep v s; try discriminate.
  - cbn. unfold setBoolVal. by destruct (strconv.ParseBool s) as [b [err | ]].
  - destruct w; cbn; unfold setIntVal; by destruct (strconv.ParseInt s 64) as [i [err | ]].
  - destruct w; cbn; unfold setUintVal; by destruct (strconv.ParseUint s 64) as [i [err | ]].
  - destruct w; cbn; unfold setFloatVal; by destruct (ParseFloat X s) as [x [err | ]].
  - reflexivity.
  - cbn. unfold setDurationVal. by destruct (ParseDuration X s) as [d [err | ]].
  - by destruct k.
  - cbn -[setSliceValue]. unfold setSliceValue.
    destruct (length (strings.Split s (arraySep c)) =? 0)%nat eqn:Hlen; cbn [fst]; rewrite ?Hlen;
      [reflexivity | ].
    by destruct (fillSlice _ (zero e) (strings.Split s (arraySep c))) as [[l | err] | p].
  - reflexivity.
  - cbn [repeatable] in Hrep. apply andb_prop in Hrep as [_ Hrep]. cbn [setDirectVal].
    destruct v as [ | | | | | | | | | [target | ]]; try reflexivity.
    specialize (IH Hrep target s).
    destruct (setDirectVal X c e target s) as [target' r] eqn:E. cbn [fst] in *.
    by rewrite IH.
Qed.

Lemma setFieldVal_again t :
  repeatable t = true ->
  forall v s,
    setFieldVal X c t true (setFieldVal X c t true v s).1 s = setFieldVal X c t true v s.
Proof.
  intros Hrep v s. unfold setFieldVal. cbn [negb].
  assert (Halloc : allocIfNil t (setDirectVal X c t (allocIfNil t v) s).1
                   = (setDirectVal X c t (allocIfNil t v) s).1).
  { destruct t; try reflexivity. cbn [allocIfNil setDirectVal].
    destruct v as [ | | | | | | | | | [target | ]]; cbn [IsNil]; try reflexivity;
      by destruct (setDirectVal X c t _ s). }
  rewrite Halloc. by apply setDirectVal_again.
Qed.

(** Among the types that can be loaded again, the walk descends into
    structs only. *)
Lemma repeatable_descends t :
  repeatable t = true -> descends t = true -> exists fs, t = TStruct fs.
Proof.
  destruct t as [ | [] | [] | [] | | | [] | e | k e | fs | e | name u ];
    try discriminate; [eauto | ].
  cbn [repeatable]. intros [Hn _]%andb_prop Hd. change (descends e = true) in Hd.
  by rewrite Hd in Hn.
Qed.

(** One field: where the loop over the members of a struct field can be
    run again, so can the visit. *)
Lemma visit_again_step tf pre vf :
  (negb (CanSet tf) || repeatable (Type_ tf)) = true ->
  (forall fs' pre vs found,
     CanSet tf = true -> Type_ tf = TStruct fs' ->
     fieldLoop (visit X c environ) pre fs'
       (fieldLoop (visit X c environ) pre fs' vs found).1 found
     = fieldLoop (visit X c environ) pre fs' vs found) ->
  visit X c environ tf (visit X c environ tf vf pre).1 pre = visit X c environ tf vf pre.
Proof.
  intros Hrep IH. destruct (CanSet tf) eqn:Hset;
    [ | by rewrite !(visit_unsettable X c environ tf _ pre Hset)].
  cbn [negb orb] in Hrep.
  destruct (descends (Type_ tf)) eqn:Hd.
  - destruct (repeatable_descends _ Hrep Hd) as [fs' Htype].
    assert (Hvisit : forall v,
      visit X c environ tf v pre =
        setStructVal c (loopOverFields X c environ (TStruct fs')) (TStruct fs') v
          (buildEnvKey c tf pre).2).
    { intros v. rewrite visit_loadToField. unfold loadToField. rewrite Hset, Htype.
      destruct (buildEnvKey c tf pre) as [envKey nPrefix]. cbn [negb getDirectType Kind isStruct
        reflect.eqb snd].
      destruct (LookupEnv environ envKey) as [envVal | ]; [ | reflexivity].
      by rewrite setFieldVal_struct. }
    rewrite !Hvisit.
    destruct vf as [ | | | | | | | | vs | ]; try reflexivity.
    rewrite !(setStructVal_struct X c environ). cbn [fst].
    rewrite !(setStructVal_struct X c environ).
    by rewrite (IH fs' (buildEnvKey c tf pre).2 vs false eq_refl Htype).
  - assert (Hvisit : forall v,
      visit X c environ tf v pre =
        match LookupEnv environ (buildEnvKey c tf pre).1 with
        | Some envVal =>
            match setFieldVal X c (Type_ tf) true v envVal with
            | (v', Panics p) =>
                (v', (false, Some (FieldPanic (getDirectType (Type_ tf))
                                     (strings.Join (buildEnvKey c tf pre).2 (sep c)) p)))
            | (v', Returns (_, Some err1)) =>
                (v', (false, Some (Wrapf err1 ("cannot set field "
                                                 ++ (buildEnvKey c tf pre).1 ++ " value"))))
            | (v', Returns (set, None)) => (v', (set, None))
            end
        | None => (v, (false, None))
        end).
    { intros v. rewrite visit_loadToField. unfold loadToField. rewrite Hset.
      unfold descends in Hd. rewrite Hd.
      destruct (buildEnvKey c tf pre) as [envKey nPrefix]. cbn [negb fst snd].
      destruct (LookupEnv environ envKey) as [envVal | ]; [ | reflexivity].
      by destruct (setFieldVal X c (Type_ tf) true v envVal) as [v' [[[] [err | ]] | p]]. }
    rewrite !Hvisit.
    destruct (LookupEnv environ (buildEnvKey c tf pre).1) as [envVal | ]; [ | reflexivity].
    pose proof (setFieldVal_again _ Hrep vf envVal) as Hagain.
    destruct (setFieldVal X c (Type_ tf) true vf envVal) as [v' [[set [err | ]] | p]];
      cbn [fst] in *; by rewrite Hagain.
Qed.

(** The loop over the fields of a struct that can be loaded again. *)
Lemma fields_again fs :
  repeatable (TStruct fs) = true ->
  forall pre vs found,
    fieldLoop (visit X c environ) pre fs
      (fieldLoop (visit X c environ) pre fs vs found).1 found
    = fieldLoop (visit X c environ) pre fs vs found.
Proof.
  induction fs as [fs IH] using fields_induction.
  assert (Hsuffix : forall fs0, (forall tf, tf ∈ fs0 -> tf ∈ fs) ->
    repeatable (TStruct fs0) = true ->
    forall pre vs found,
      fieldLoop (visit X c environ) pre fs0
        (fieldLoop (visit X c environ) pre fs0 vs found).1 found
      = fieldLoop (visit X c environ) pre fs0 vs found).
  { induction fs0 as [ | tf fs0 IH0 ]; intros Hin Hrep pre vs found; [reflexivity | ].
    destruct vs as [ | vf vs ]; [reflexivity | ].
    cbn [repeatable forallb] in Hrep. apply andb_prop in Hrep as [Htf Hrest].
    assert (Hstep : visit X c environ tf (visit X c environ tf vf pre).1 pre
                    = visit X c environ tf vf pre).
    { apply visit_again_step; [exact Htf | ].
      intros fs' pre' vs' found' Hset Htype.
      apply (IH tf fs'); [apply Hin; left | by rewrite Htype | ].
      rewrite Hset, Htype in Htf. exact Htf. }
    rewrite fieldLoop_cons.
    destruct (visit X c environ tf vf pre) as [vf' [ff [err | ]]] eqn:Ev; cbn [fst] in *.
    - rewrite fieldLoop_cons, Hstep. reflexivity.
    - rewrite fieldLoop_cons, Hstep.
      specialize (IH0 (fun tf' H => Hin tf' (list_elem_of_further _ _ _ H)) Hrest pre vs
                    (if ff then true else found)).
      destruct (fieldLoop (visit X c environ) pre fs0 vs (if ff then true else found))
        as [vs' r] eqn:El.
      cbn [fst snd] in *. by rewrite IH0. }
  intros Hrep. apply Hsuffix; auto.
Qed.

End Again.


(** X17.  [Load] can be run again.  For a record built of booleans,
    integers, floats, strings, durations, slices, pointers to these and
    structs held by value (no map, no type with its own [UnmarshalText],
    no pointer to a record among the exported fields), a second [Load]
    under the same environment into the value the first one left changes
    nothing and returns what the first returned, error included. *)
Theorem Load_again (X : Externals) (c : Loader) (environ : gmap string string)
    (fs : list (StructField rtype)) (s : value) :
  repeatable (TStruct fs) = true ->
  Load X c environ (TPtr (TStruct fs)) (Load X c environ (TPtr (TStruct fs)) s).1
  = Load X c environ (TPtr (TStruct fs)) s.
Proof.
  intros Hrep.
  destruct s as [ | | | | | | | | | [v | ]]; try reflexivity.
  destruct v as [ | | | | | | | | vs | ]; try reflexivity.
  change (VPtr (Some (VStruct vs))) with (addr (VStruct vs)).
  rewrite !Load_struct. cbn [fst]. rewrite Load_struct.
  by rewrite (fields_again X c environ fs Hrep [] vs false).
Qed.

Lemma Load_again_witness :
  Load noForeign (New []) {[ "HOST" := "db"; "PORT" := "x"; "LIMITS_MAX" := "9" ]}
    (TPtr (TStruct [exported "Host" TString [];
                    exported "Limits" (TStruct [exported "Max" (TPtr (TInt I)) []]) [];
                    exported "Port" (TInt I) []]))
    (Load noForeign (New []) {[ "HOST" := "db"; "PORT" := "x"; "LIMITS_MAX" := "9" ]}
       (TPtr (TStruct [exported "Host" TString [];
                       exported "Limits" (TStruct [exported "Max" (TPtr (TInt I)) []]) [];
                       exported "Port" (TInt I) []]))
       (addr (VStruct [VString ""; VStruct [VPtr None]; VInt 0]))).1
  = Load noForeign (New []) {[ "HOST" := "db"; "PORT" := "x"; "LIMITS_MAX" := "9" ]}
      (TPtr (TStruct [exported "Host" TString [];
                      exported "Limits" (TStruct [exported "Max" (TPtr (TInt I)) []]) [];
                      exported "Port" (TInt I) []]))
      (addr (VStruct [VString ""; VStruct [VPtr None]; VInt 0])).
Proof.
  apply (Load_again noForeign (New [])
           {[ "HOST" := "db"; "PORT" := "x"; "LIMITS_MAX" := "9" ]}
           [exported "Host" TString [];
            exported "Limits" (TStruct [exported "Max" (TPtr (TInt I)) []]) [];
            exported "Port" (TInt I) []]
           (addr (VStruct [VString ""; VStruct [VPtr None]; VInt 0]))).
  reflexivity.
Defined.

(** ** Slices of slices *)





(** ** Underscores in names *)

Lemma ToUpper_underscore ch :
  Ascii.eqb (unicode.ToUpper ch) "_" = Ascii.eqb ch "_".
Proof. by destruct ch as [[] [] [] [] [] [] [] []]. Qed.

Lemma IsUpper_not_underscore ch : unicode.IsUpper ch = true -> Ascii.eqb ch "_" = false.
Proof. by destruct ch as [[] [] [] [] [] [] [] []]. Qed.

Lemma upperCaseLoop_apart s : forall prev,
  underscoresApart (match prev with Some p => Ascii.eqb p "_" | None => false end) s = true ->
  underscoresApart (match prev with Some p => Ascii.eqb p "_" | None => false end)
    (upperCaseLoop prev s) = true.
Proof.
  induction s as [ | ch s IH ]; intros prev Hin; [done | ].
  cbn [upperCaseLoop]. cbn [underscoresApart] in Hin.
  match goal with |- context [if ?b then _ else _] => destruct b eqn:Hsplit end.
  - destruct prev as [p | ]; [ | discriminate].
    assert (Hup : unicode.IsUpper ch = true) by (by destruct (unicode.IsUpper ch)).
    assert (Hp : Ascii.eqb p "_" = false).
    { destruct (Ascii.eqb p "_"); [ | done]. cbn in Hsplit.
      by rewrite !andb_false_r in Hsplit. }
    pose proof (IsUpper_not_underscore ch Hup) as Hch.
    rewrite Hp. rewrite Hch in Hin.
    cbn [underscoresApart]. change (Ascii.eqb "_" "_") with true. rewrite Hch. cbn [negb andb].
    specialize (IH (Some ch)). cbn beta iota in IH. rewrite Hch in IH. by apply IH.
  - cbn [underscoresApart]. rewrite ToUpper_underscore.
    specialize (IH (Some ch)). cbn beta iota in IH.
    destruct (Ascii.eqb ch "_").
    + apply andb_prop in Hin as [-> Hin]. cbn [andb]. by apply IH.
    + by apply IH.
Qed.

(** X19.  [UperCaseTransformer] never makes a doubled underscore: if no
    underscore of the name stands next to another, the same holds of the
    result, because no underscore is inserted after an underscore and
    the letter after an inserted underscore is kept. *)
Theorem UperCaseTransformer_underscores_apart (key : string) :
  underscoresApart false key = true ->
  underscoresApart false (UperCaseTransformer key) = true.
Proof. exact (upperCaseLoop_apart key None). Qed.

Lemma UperCaseTransformer_underscores_apart_witness :
  underscoresApart false (UperCaseTransformer "DB_HostName") = true.
Proof. apply (UperCaseTransformer_underscores_apart "DB_HostName"). reflexivity. Defined.
